(** * CustomConv2DFunction and CustomConv2d (student_code.py, Part I)

    A shallow embedding of the hand-written 2-D convolution operator: its
    forward pass (unfold, matrix product, bias, fold), its backward pass
    and the parameter-owning wrapper, together with the properties the
    design document states about them.

    Scalars are integers: tensor entries are read as exact numbers, so
    the equalities below are the exact-arithmetic content of the
    floating-point statements.  Tensors are contiguous, row-major. *)

From Stdlib Require Import ZArith List Lia Bool Arith.
Import ListNotations.

Set Implicit Arguments.

(* ===================================================================== *)
(** ** Python outcomes: exceptions, results *)
(* ===================================================================== *)

Module Py.

Inductive exn : Type :=
| AssertionError
| AttributeError
| IndexError
| RuntimeError
| ValueError
| ZeroDivisionError.

Inductive result (A : Type) : Type :=
| Ok (a : A)
| Raise (e : exn).

Arguments Ok {A} a.
Arguments Raise {A} e.

Definition rbind {A B} (r : result A) (k : A -> result B) : result B :=
  match r with
  | Ok a => k a
  | Raise e => Raise e
  end.

(** An argument that the callers pass either as an int or as a pair
    (torch.nn.Conv2d accepts both for kernel_size, stride and padding). *)
Inductive arg : Type :=
| Int (z : Z)
| Pair (a b : Z).

Definition isinstance_int (a : arg) : bool :=
  match a with Int _ => true | Pair _ _ => false end.

Definition int_of (a : arg) : Z :=
  match a with Int z => z | Pair _ _ => 0%Z end.

End Py.
Import Py.

(* ===================================================================== *)
(** ** Finite sums and counted loops *)
(* ===================================================================== *)

(** [sumz n f] is f 0 + ... + f (n-1). *)
Fixpoint sumz (n : nat) (f : nat -> Z) : Z :=
  match n with
  | O => 0%Z
  | S k => (sumz k f + f k)%Z
  end.

(** [loop n body s] runs body 0, body 1, ..., body (n-1) on the state. *)
Fixpoint loop {St : Type} (n : nat) (body : nat -> St -> St) (s : St) : St :=
  match n with
  | O => s
  | S k => body k (loop k body s)
  end.

(** [tab n f] concatenates the blocks f 0, ..., f (n-1). *)
Definition tab {A : Type} (n : nat) (f : nat -> list A) : list A :=
  flat_map f (seq 0 n).

Definition fill1 (a : nat) (f : nat -> Z) : list Z := map f (seq 0 a).
Definition fill2 (a b : nat) (f : nat -> nat -> Z) : list Z :=
  tab a (fun i => fill1 b (f i)).
Definition fill3 (a b c : nat) (f : nat -> nat -> nat -> Z) : list Z :=
  tab a (fun i => fill2 b c (f i)).
Definition fill4 (a b c d : nat) (f : nat -> nat -> nat -> nat -> Z) : list Z :=
  tab a (fun i => fill3 b c d (f i)).

(** Row-major offsets. *)
Definition ix2 (b : nat) (i j : nat) : nat := i * b + j.
Definition ix3 (b c : nat) (i j k : nat) : nat := (i * b + j) * c + k.
Definition ix4 (b c d : nat) (i j k l : nat) : nat := ((i * b + j) * c + k) * d + l.

(** In-place accumulation into one cell of a flat buffer. *)
Fixpoint add_at (buf : list Z) (idx : nat) (v : Z) : list Z :=
  match buf, idx with
  | [], _ => []
  | x :: r, O => (x + v)%Z :: r
  | x :: r, S i => x :: add_at r i v
  end.

(* ===================================================================== *)
(** ** Tensors and the torch primitives the operator calls *)
(* ===================================================================== *)

Module Torch.

Record Tensor : Type := mkTensor { shape : list nat; data : list Z }.

Definition numel (sh : list nat) : nat := fold_right Nat.mul 1 sh.

(** A tensor is well formed when its storage has one entry per index. *)
Definition wf (t : Tensor) : Prop := length (data t) = numel (shape t).

Definition rd (t : Tensor) (k : nat) : Z := nth k (data t) 0%Z.

(** Entry readers for each rank. *)
Definition at1 (t : Tensor) (i : nat) : Z := rd t i.
Definition at2 (t : Tensor) (i j : nat) : Z :=
  rd t (ix2 (nth 1 (shape t) 0) i j).
Definition at3 (t : Tensor) (i j k : nat) : Z :=
  rd t (ix3 (nth 1 (shape t) 0) (nth 2 (shape t) 0) i j k).
Definition at4 (t : Tensor) (i j k l : nat) : Z :=
  rd t (ix4 (nth 1 (shape t) 0) (nth 2 (shape t) 0) (nth 3 (shape t) 0) i j k l).

(** [t.size(k)]: IndexError when the dimension does not exist. *)
Definition size (t : Tensor) (k : nat) : result nat :=
  match nth_error (shape t) k with
  | Some d => Ok d
  | None => Raise IndexError
  end.

(** Number of sliding-window positions along one axis, as torch computes
    it for unfold and fold (dilation 1); Python's floor division. *)
Definition out_size (h : nat) (p : Z) (k : nat) (s : Z) : Z :=
  ((Z.of_nat h + 2 * p - Z.of_nat k) / s + 1)%Z.

(** Read of the zero-padded image at padded coordinates (y, x). *)
Definition padded (t : Tensor) (p : nat) (n c y x : nat) : Z :=
  match shape t with
  | [_; _; H; W] =>
      if (p <=? y) && (y <? H + p) && (p <=? x) && (x <? W + p)
      then at4 t n c (y - p) (x - p) else 0%Z
  | _ => 0%Z
  end.

(** [torch.nn.functional.unfold(x, (K,K), padding=p, stride=s)] on a
    batched input: column l = oy*Wo+ox holds the receptive field of
    output position (oy, ox), row (c*K+i)*K+j its entry (c, i, j). *)
Definition unfold (x : Tensor) (K : nat) (p s : Z) : result Tensor :=
  match shape x with
  | [N; C; H; W] =>
      if (0 <? K) && (0 <=? p)%Z && (0 <? s)%Z
         && (0 <? C) && (0 <? H) && (0 <? W)
         && (1 <=? out_size H p K s)%Z && (1 <=? out_size W p K s)%Z
      then
        let Ho := Z.to_nat (out_size H p K s) in
        let Wo := Z.to_nat (out_size W p K s) in
        let pn := Z.to_nat p in
        let sn := Z.to_nat s in
        Ok (mkTensor [N; C * K * K; Ho * Wo]
              (tab N (fun n => tab C (fun c => tab K (fun i => tab K (fun j =>
                 tab Ho (fun oy => fill1 Wo (fun ox =>
                   padded x pn n c (oy * sn + i) (ox * sn + j)))))))))
      else Raise RuntimeError
  | _ => Raise RuntimeError
  end.

(** col2im for one batch element: every column entry is accumulated into
    the pixel it was gathered from; entries that fall into the padding
    are dropped. *)
Definition col2im (col : nat -> nat -> Z) (C H W K p s Ho Wo : nat) : list Z :=
  loop C (fun c =>
  loop K (fun i =>
  loop K (fun j =>
  loop Ho (fun oy =>
  loop Wo (fun ox im =>
    let y := oy * s + i in
    let x := ox * s + j in
    if (p <=? y) && (y <? H + p) && (p <=? x) && (x <? W + p)
    then add_at im (ix3 H W c (y - p) (x - p))
                (col ((c * K + i) * K + j) (oy * Wo + ox))
    else im)))))
  (repeat 0%Z (C * H * W)).

(** [torch.nn.functional.fold(cols, output_size=(H,W), (K,K), padding=p,
    stride=s)] on a batched input (N, C*K*K, L). *)
Definition fold (cols : Tensor) (out : Z * Z) (K : nat) (p s : Z) : result Tensor :=
  match shape cols with
  | [N; CKK; L] =>
      let H := Z.to_nat (fst out) in
      let W := Z.to_nat (snd out) in
      if (0 <? fst out)%Z && (0 <? snd out)%Z
         && (0 <? K) && (0 <=? p)%Z && (0 <? s)%Z
         && (0 <? CKK) && (CKK mod (K * K) =? 0)
         && (1 <=? out_size H p K s)%Z && (1 <=? out_size W p K s)%Z
         && (L =? Z.to_nat (out_size H p K s) * Z.to_nat (out_size W p K s))
      then
        let C := CKK / (K * K) in
        let Ho := Z.to_nat (out_size H p K s) in
        let Wo := Z.to_nat (out_size W p K s) in
        Ok (mkTensor [N; C; H; W]
              (tab N (fun n =>
                 col2im (fun r l => rd cols (ix3 CKK L n r l))
                        C H W K (Z.to_nat p) (Z.to_nat s) Ho Wo)))
      else Raise RuntimeError
  | _ => Raise RuntimeError
  end.

(** [t.view(d0, -1)] and [t.view(d0, -1, k, k)]: same storage, new shape;
    the -1 dimension is inferred and must come out exact. *)
Definition view2 (t : Tensor) (d0 : nat) : result Tensor :=
  if (0 <? d0) && (numel (shape t) mod d0 =? 0)
  then Ok (mkTensor [d0; numel (shape t) / d0] (data t))
  else Raise RuntimeError.

Definition view4 (t : Tensor) (d0 k1 k2 : nat) : result Tensor :=
  if (0 <? d0 * k1 * k2) && (numel (shape t) mod (d0 * k1 * k2) =? 0)
  then Ok (mkTensor [d0; numel (shape t) / (d0 * k1 * k2); k1; k2] (data t))
  else Raise RuntimeError.

(** [t.transpose(1,2)] of a rank-3 tensor and [m.t()] of a matrix,
    given by their entries. *)
Definition transpose12 (t : Tensor) : result Tensor :=
  match shape t with
  | [a; b; c] =>
      Ok (mkTensor [a; c; b] (fill3 a c b (fun i j k => rd t (ix3 b c i k j))))
  | _ => Raise IndexError
  end.

Definition t_ (m : Tensor) : result Tensor :=
  match shape m with
  | [a; b] => Ok (mkTensor [b; a] (fill2 b a (fun i j => rd m (ix2 b j i))))
  | _ => Raise RuntimeError
  end.

(** [a.matmul(b)] for a batch of matrices times one matrix, and for two
    batches of the same size. *)
Definition matmul (a b : Tensor) : result Tensor :=
  match shape a, shape b with
  | [N; A; B], [B'; C] =>
      if B =? B'
      then Ok (mkTensor [N; A; C]
                 (fill3 N A C (fun n i j =>
                    sumz B (fun k => rd a (ix3 A B n i k) * rd b (ix2 C k j))%Z)))
      else Raise RuntimeError
  | [N; A; B], [N'; B'; C] =>
      if (N =? N') && (B =? B')
      then Ok (mkTensor [N; A; C]
                 (fill3 N A C (fun n i j =>
                    sumz B (fun k => rd a (ix3 A B n i k) * rd b (ix3 B C n k j))%Z)))
      else Raise RuntimeError
  | _, _ => Raise RuntimeError
  end.

(** Broadcast index: a dimension of size 1 is read at 0. *)
Definition bc (d i : nat) : nat := if d =? 1 then 0 else i.

Definition fits (d d' : nat) : bool := (d =? d') || (d =? 1).

(** [t.expand(sizes)]: new leading dimensions are added, dimensions of
    size 1 are stretched (the two patterns the operator uses). *)
Definition expand (t : Tensor) (sizes : list nat) : result Tensor :=
  match shape t, sizes with
  | [c], [n'; c'] =>
      if fits c c'
      then Ok (mkTensor [n'; c'] (fill2 n' c' (fun _ j => rd t (bc c j))))
      else Raise RuntimeError
  | [n; c; l], [n'; c'; l'] =>
      if fits n n' && fits c c' && fits l l'
      then Ok (mkTensor [n'; c'; l']
                 (fill3 n' c' l' (fun i j k => rd t (ix3 c l (bc n i) (bc c j) (bc l k)))))
      else Raise RuntimeError
  | _, _ => Raise RuntimeError
  end.

(** [t.unsqueeze(2)] of a matrix. *)
Definition unsqueeze2 (t : Tensor) : result Tensor :=
  match shape t with
  | [a; b] => Ok (mkTensor [a; b; 1] (data t))
  | _ => Raise IndexError
  end.

(** [a + b] for operands of one shape. *)
Definition add (a b : Tensor) : result Tensor :=
  if list_eq_dec Nat.eq_dec (shape a) (shape b)
  then Ok (mkTensor (shape a)
             (map (fun xy => (fst xy + snd xy)%Z) (combine (data a) (data b))))
  else Raise RuntimeError.

(** [t.sum((0))] of a rank-3 tensor; the result is freshly allocated,
    hence contiguous. *)
Definition sum0 (t : Tensor) : result Tensor :=
  match shape t with
  | [a; b; c] =>
      Ok (mkTensor [b; c] (fill2 b c (fun j k => sumz a (fun i => rd t (ix3 b c i j k)))))
  | _ => Raise IndexError
  end.

(** [t.sum((0, 2, 3))] of a rank-4 tensor. *)
Definition sum023 (t : Tensor) : result Tensor :=
  match shape t with
  | [a; b; c; d] =>
      Ok (mkTensor [b]
            (fill1 b (fun j =>
               sumz a (fun i => sumz c (fun k => sumz d (fun l =>
                 rd t (ix4 b c d i j k l)))))))
  | _ => Raise IndexError
  end.

End Torch.
Import Torch.

(* ===================================================================== *)
(** ** The autograd context and the call monad *)
(* ===================================================================== *)

(** The torch primitives a call has run so far, oldest first. *)
Inductive prim : Type :=
| PUnfold | PFold | PView | PTranspose | PMatmul
| PExpand | PUnsqueeze | PAdd | PSum.

(** Attributes of [ctx]; an attribute never assigned is [None]. *)
Record Ctx : Type := mkCtx {
  ctx_stride : option Z;
  ctx_padding : option Z;
  ctx_input_height : option nat;
  ctx_input_width : option nat;
  saved_tensors : option (Tensor * Tensor * Tensor * option Tensor);
  needs_input_grad : list bool
}.

Record World : Type := mkWorld { ctx : Ctx; trace : list prim }.

Definition fresh_ctx (needs : list bool) : Ctx :=
  mkCtx None None None None None needs.

Definition fresh_world (needs : list bool) : World :=
  mkWorld (fresh_ctx needs) [].

(** A call threads the world and may raise; what was assigned before the
    exception stays assigned. *)
Definition M (A : Type) : Type := World -> result A * World.

Definition ret {A} (a : A) : M A := fun w => (Ok a, w).

Definition raise {A} (e : exn) : M A := fun w => (Raise e, w).

Definition bind {A B} (m : M A) (k : A -> M B) : M B :=
  fun w =>
    match m w with
    | (Ok a, w') => k a w'
    | (Raise e, w') => (Raise e, w')
    end.

Declare Scope py_scope.
Delimit Scope py_scope with py.
Notation "x <- m ;; k" := (bind m (fun x => k))
  (at level 61, m at next level, right associativity) : py_scope.
Notation "m ;; k" := (bind m (fun _ => k))
  (at level 61, right associativity) : py_scope.
Open Scope py_scope.

(** Plain Python evaluation that may raise and touches no tensor data. *)
Definition pure {A} (r : result A) : M A := fun w => (r, w).

(** A torch primitive: recorded in the trace, then evaluated. *)
Definition call {A} (p : prim) (r : result A) : M A :=
  fun w => (r, mkWorld (ctx w) (trace w ++ [p])).

Definition assert (b : bool) : M unit :=
  if b then ret tt else raise AssertionError.

Definition modify_ctx (f : Ctx -> Ctx) : M unit :=
  fun w => (Ok tt, mkWorld (f (ctx w)) (trace w)).

Definition set_stride (s : Z) : M unit :=
  modify_ctx (fun c => mkCtx (Some s) (ctx_padding c) (ctx_input_height c)
                             (ctx_input_width c) (saved_tensors c) (needs_input_grad c)).
Definition set_padding (p : Z) : M unit :=
  modify_ctx (fun c => mkCtx (ctx_stride c) (Some p) (ctx_input_height c)
                             (ctx_input_width c) (saved_tensors c) (needs_input_grad c)).
Definition set_input_height (h : nat) : M unit :=
  modify_ctx (fun c => mkCtx (ctx_stride c) (ctx_padding c) (Some h)
                             (ctx_input_width c) (saved_tensors c) (needs_input_grad c)).
Definition set_input_width (v : nat) : M unit :=
  modify_ctx (fun c => mkCtx (ctx_stride c) (ctx_padding c) (ctx_input_height c)
                             (Some v) (saved_tensors c) (needs_input_grad c)).
Definition save_for_backward (ts : Tensor * Tensor * Tensor * option Tensor) : M unit :=
  modify_ctx (fun c => mkCtx (ctx_stride c) (ctx_padding c) (ctx_input_height c)
                             (ctx_input_width c) (Some ts) (needs_input_grad c)).

(** Reading an attribute that was never assigned is an AttributeError. *)
Definition attr {A} (f : Ctx -> option A) : M A :=
  fun w => match f (ctx w) with
           | Some a => (Ok a, w)
           | None => (Raise AttributeError, w)
           end.

(** [a, b, c, d = ctx.saved_tensors]: when nothing was saved the tuple
    is empty and the unpacking is a ValueError.  The engine frees the
    saved tensors once a backward pass has run; a context in that state
    is not modelled, so what follows describes a first backward pass. *)
Definition unpack_saved : M (Tensor * Tensor * Tensor * option Tensor) :=
  fun w => match saved_tensors (ctx w) with
           | Some ts => (Ok ts, w)
           | None => (Raise ValueError, w)
           end.

Definition needs_grad (k : nat) : M bool :=
  fun w => match nth_error (needs_input_grad (ctx w)) k with
           | Some b => (Ok b, w)
           | None => (Raise IndexError, w)
           end.

(** Attribute lookup on an optional tensor: [None.expand] does not exist. *)
Definition method_of (b : option Tensor) : M Tensor :=
  match b with
  | Some t => ret t
  | None => raise AttributeError
  end.

(* ===================================================================== *)
(** ** CustomConv2DFunction *)
(* ===================================================================== *)

Definition grads : Type :=
  (option Tensor * option Tensor * option Tensor * option Tensor * option Tensor)%type.

Module CustomConv2DFunction.

Definition forward (input_feats weight : Tensor) (bias : option Tensor)
    (stride padding : arg) : M Tensor :=
  (* sanity check *)
  k2 <- pure (size weight 2) ;;
  k3 <- pure (size weight 3) ;;
  assert (k2 =? k3) ;;
  ci <- pure (size input_feats 1) ;;
  cw <- pure (size weight 1) ;;
  assert (ci =? cw) ;;
  assert (isinstance_int stride && (0 <? int_of stride)%Z) ;;
  assert (isinstance_int padding && (0 <=? int_of padding)%Z) ;;
  let stride := int_of stride in
  let padding := int_of padding in
  (* save the conv params *)
  kernel_size <- pure (size weight 2) ;;
  set_stride stride ;;
  set_padding padding ;;
  h <- pure (size input_feats 2) ;;
  set_input_height h ;;
  w <- pure (size input_feats 3) ;;
  set_input_width w ;;
  (* make sure this is a valid convolution *)
  assert (Z.of_nat kernel_size <=? Z.of_nat h + 2 * padding)%Z ;;
  assert (Z.of_nat kernel_size <=? Z.of_nat w + 2 * padding)%Z ;;
  input_feats_unfold <- call PUnfold (unfold input_feats kernel_size padding stride) ;;
  co <- pure (size weight 0) ;;
  weight_unfold <- call PView (view2 weight co) ;;
  xt <- call PTranspose (transpose12 input_feats_unfold) ;;
  wt <- call PTranspose (t_ weight_unfold) ;;
  prod <- call PMatmul (matmul xt wt) ;;
  out_unfold <- call PTranspose (transpose12 prod) ;;
  b <- method_of bias ;;
  b1 <- call PExpand (expand b (firstn 2 (shape out_unfold))) ;;
  b2 <- call PUnsqueeze (unsqueeze2 b1) ;;
  bias_unfold <- call PExpand (expand b2 (shape out_unfold)) ;;
  out_unfold <- call PAdd (add out_unfold bias_unfold) ;;
  ih <- attr ctx_input_height ;;
  iw <- attr ctx_input_width ;;
  pd <- attr ctx_padding ;;
  let out_dim1 := ((Z.of_nat ih + 2 * pd - Z.of_nat kernel_size) / stride + 1)%Z in
  let out_dim2 := ((Z.of_nat iw + 2 * pd - Z.of_nat kernel_size) / stride + 1)%Z in
  out_fold <- call PFold (fold out_unfold (out_dim1, out_dim2) 1 0 1) ;;
  (* save for backward *)
  save_for_backward (input_feats_unfold, weight_unfold, weight, bias) ;;
  ret out_fold.

Definition backward (grad_output : Tensor) : M grads :=
  (* unpack tensors and initialize the grads *)
  saved <- unpack_saved ;;
  let '(input_feats_unfold, weight_unfold, weight, bias) := saved in
  (* recover the conv params *)
  kernel_size <- pure (size weight 2) ;;
  stride <- attr ctx_stride ;;
  padding <- attr ctx_padding ;;
  input_height <- attr ctx_input_height ;;
  input_width <- attr ctx_input_width ;;
  (* compute the gradients w.r.t. input and params *)
  grad_output_unfold <- call PUnfold (unfold grad_output 1 0 1) ;;
  gt <- call PTranspose (transpose12 grad_output_unfold) ;;
  gp <- call PMatmul (matmul gt weight_unfold) ;;
  grad_input_unfold <- call PTranspose (transpose12 gp) ;;
  grad_input <- call PFold (fold grad_input_unfold
                              (Z.of_nat input_height, Z.of_nat input_width)
                              kernel_size padding stride) ;;
  gt' <- call PTranspose (transpose12 grad_output_unfold) ;;
  wp <- call PMatmul (matmul input_feats_unfold gt') ;;
  grad_weight_unfold <- call PTranspose (transpose12 wp) ;;
  summed <- call PSum (sum0 grad_weight_unfold) ;;
  d1 <- pure (size grad_weight_unfold 1) ;;
  grad_weight <- call PView (view4 summed d1 kernel_size kernel_size) ;;
  need <- (match bias with
           | Some _ => needs_grad 2
           | None => ret false
           end) ;;
  grad_bias <- (if need
                then gb <- call PSum (sum023 grad_output) ;; ret (Some gb)
                else ret None) ;;
  ret (Some grad_input, Some grad_weight, grad_bias, None, None).

End CustomConv2DFunction.

(** [custom_conv2d = CustomConv2DFunction.apply]: the engine hands the
    forward pass a context of its own. *)
Definition custom_conv2d (input weight : Tensor) (bias : option Tensor)
    (stride padding : arg) : M Tensor :=
  fun w =>
    CustomConv2DFunction.forward input weight bias stride padding
      (mkWorld (fresh_ctx (needs_input_grad (ctx w))) (trace w)).

(* ===================================================================== *)
(** ** CustomConv2d, the parameter-owning module *)
(* ===================================================================== *)

Module CustomConv2d.

Record t : Type := mk {
  in_channels : Z;
  out_channels : Z;
  kernel_size : arg;
  stride : arg;
  padding : arg;
  dilation : arg;
  groups : arg;
  weight : Tensor;
  bias : option Tensor
}.

(** [torch.Tensor(d0, ..)]: an uninitialised tensor of the given sizes;
    a negative size is a RuntimeError. *)
Definition new_tensor (dims : list Z) : result Tensor :=
  if forallb (fun d => (0 <=? d)%Z) dims
  then Ok (mkTensor (map Z.to_nat dims)
             (repeat 0%Z (numel (map Z.to_nat dims))))
  else Raise RuntimeError.

(** [fan_in] of a convolution weight: input channels times window size. *)
Definition fan_in (w : Tensor) : nat :=
  nth 1 (shape w) 0 * numel (skipn 2 (shape w)).

(** The random draws of one initialisation: entry k of the weight and
    entry k of the bias. *)
Record draws : Type := mkDraws { wdraw : nat -> Z; bdraw : nat -> Z }.

(** [reset_parameters]: the weight is redrawn unless it has no element
    (kaiming_uniform_ returns early then); the bias bound divides by
    sqrt(fan_in). *)
Definition reset_parameters (r : draws) (w : Tensor) (b : option Tensor)
  : result (Tensor * option Tensor) :=
  let w' := if existsb (Nat.eqb 0) (shape w) then w
            else mkTensor (shape w) (fill1 (numel (shape w)) (wdraw r)) in
  match b with
  | None => Ok (w', None)
  | Some bt =>
      if fan_in w' =? 0 then Raise ZeroDivisionError
      else Ok (w', Some (mkTensor (shape bt) (fill1 (numel (shape bt)) (bdraw r))))
  end.

Definition init (r : draws) (in_channels out_channels : Z)
    (kernel_size stride padding dilation groups : arg) (bias : bool) : result t :=
  if negb (isinstance_int kernel_size) then Raise AssertionError
  else if negb (isinstance_int stride) then Raise AssertionError
  else if negb (isinstance_int padding) then Raise AssertionError
  else
    let k := int_of kernel_size in
    rbind (new_tensor [out_channels; in_channels; k; k]) (fun w =>
    rbind (if bias then rbind (new_tensor [out_channels]) (fun b => Ok (Some b))
           else Ok None) (fun b =>
    rbind (reset_parameters r w b) (fun wb =>
    Ok (mk in_channels out_channels kernel_size stride padding
           dilation groups (fst wb) (snd wb))))).

Definition forward (self : t) (input : Tensor) : M Tensor :=
  custom_conv2d input (weight self) (bias self) (stride self) (padding self).

End CustomConv2d.

(* ===================================================================== *)
(** ** Sums, blocks and buffers: basic facts *)
(* ===================================================================== *)

Section Sums.

Lemma sumz_ext (n : nat) (f g : nat -> Z) :
  (forall k, k < n -> f k = g k) -> sumz n f = sumz n g.
Proof.
  induction n as [|n IH]; intros E; simpl; [reflexivity|].
  rewrite IH by (intros; apply E; lia).
  rewrite E by lia. reflexivity.
Qed.

Lemma sumz_zero (n : nat) (f : nat -> Z) :
  (forall k, k < n -> f k = 0%Z) -> sumz n f = 0%Z.
Proof.
  induction n as [|n IH]; intros E; simpl; [reflexivity|].
  rewrite IH by (intros; apply E; lia).
  rewrite E by lia. reflexivity.
Qed.

Lemma sumz_plus (n : nat) (f g : nat -> Z) :
  sumz n (fun k => (f k + g k)%Z) = (sumz n f + sumz n g)%Z.
Proof. induction n as [|n IH]; simpl; [reflexivity | rewrite IH; ring]. Qed.

Lemma sumz_scale (n : nat) (c : Z) (f : nat -> Z) :
  sumz n (fun k => (c * f k)%Z) = (c * sumz n f)%Z.
Proof. induction n as [|n IH]; simpl; [ring | rewrite IH; ring]. Qed.

Lemma sumz_app (a b : nat) (f : nat -> Z) :
  sumz (a + b) f = (sumz a f + sumz b (fun k => f (a + k)%nat))%Z.
Proof.
  induction b as [|b IH]; simpl.
  - rewrite Nat.add_0_r. ring.
  - rewrite Nat.add_succ_r. simpl. rewrite IH. ring.
Qed.

(** A sum over a product range is the double sum over its rows. *)
Lemma sumz_prod (a b : nat) (f : nat -> Z) :
  sumz (a * b) f = sumz a (fun i => sumz b (fun j => f (i * b + j))).
Proof.
  induction a as [|a IH]; simpl; [reflexivity|].
  replace (b + a * b) with (a * b + b) by lia.
  rewrite sumz_app, IH. reflexivity.
Qed.

Lemma sumz_swap (a b : nat) (f : nat -> nat -> Z) :
  sumz a (fun i => sumz b (fun j => f i j)) =
  sumz b (fun j => sumz a (fun i => f i j)).
Proof.
  induction a as [|a IH]; simpl.
  - symmetry. apply sumz_zero. reflexivity.
  - rewrite IH, <- sumz_plus. reflexivity.
Qed.

(** A sum with a single selected index. *)
Lemma sumz_pick (n k0 : nat) (v : nat -> Z) :
  sumz n (fun k => if k =? k0 then v k else 0%Z) =
  if k0 <? n then v k0 else 0%Z.
Proof.
  induction n as [|n IH]; simpl; [reflexivity|].
  rewrite IH.
  destruct (Nat.eqb_spec n k0) as [->|Hne].
  - rewrite Nat.ltb_irrefl.
    replace (k0 <? S k0) with true by (symmetry; apply Nat.ltb_lt; lia). ring.
  - destruct (Nat.ltb_spec k0 n), (Nat.ltb_spec k0 (S n)); try lia; ring.
Qed.

Lemma sumz_one (f : nat -> Z) : sumz 1 f = f 0.
Proof. simpl. ring. Qed.

End Sums.

Section Blocks.

Context {A : Type}.

Lemma tab_S (n : nat) (f : nat -> list A) : tab (S n) f = tab n f ++ f n.
Proof.
  unfold tab. rewrite seq_S, flat_map_app. simpl.
  rewrite app_nil_r. reflexivity.
Qed.

Lemma length_tab (n m : nat) (f : nat -> list A) :
  (forall i, i < n -> length (f i) = m) -> length (tab n f) = n * m.
Proof.
  induction n as [|n IH]; intros E; [reflexivity|].
  rewrite tab_S, length_app, IH, E by (intros; auto). lia.
Qed.

Lemma nth_tab (n m : nat) (f : nat -> list A) (i j : nat) (d : A) :
  (forall i, i < n -> length (f i) = m) ->
  i < n -> j < m -> nth (i * m + j) (tab n f) d = nth j (f i) d.
Proof.
  induction n as [|n IH]; intros E Hi Hj; [lia|].
  rewrite tab_S.
  assert (L : length (tab n f) = n * m) by (apply length_tab; auto).
  destruct (Nat.eq_dec i n) as [->|Hne].
  - rewrite app_nth2 by (rewrite L; lia).
    rewrite L. f_equal. lia.
  - rewrite app_nth1 by (rewrite L; nia).
    apply IH; auto; lia.
Qed.

(** Two flat buffers of n rows of m cells agree when all cells agree. *)
Lemma rows_ext (n m : nat) (l l' : list A) (d : A) :
  length l = n * m -> length l' = n * m ->
  (forall i j, i < n -> j < m -> nth (i * m + j) l d = nth (i * m + j) l' d) ->
  l = l'.
Proof.
  intros L L' E.
  apply nth_ext with (d := d) (d' := d); [congruence|].
  intros k Hk. rewrite L in Hk.
  destruct (Nat.eq_dec m 0) as [->|Hm]; [lia|].
  rewrite (Nat.div_mod_eq k m).
  replace (m * (k / m) + k mod m) with (k / m * m + k mod m) by lia.
  apply E.
  - apply Nat.Div0.div_lt_upper_bound. lia.
  - apply Nat.mod_upper_bound. exact Hm.
Qed.

End Blocks.

Section Offsets.

Lemma ix2_lt a b i j : i < a -> j < b -> ix2 b i j < a * b.
Proof. unfold ix2. intros. nia. Qed.

Lemma ix3_lt a b c i j k : i < a -> j < b -> k < c -> ix3 b c i j k < a * b * c.
Proof.
  intros Hi Hj Hk. unfold ix3.
  pose proof (ix2_lt Hi Hj) as H2. unfold ix2 in H2. nia.
Qed.

Lemma ix4_lt a b c d i j k l :
  i < a -> j < b -> k < c -> l < d -> ix4 b c d i j k l < a * b * c * d.
Proof.
  intros Hi Hj Hk Hl. unfold ix4.
  pose proof (ix3_lt Hi Hj Hk) as H3. unfold ix3 in H3. nia.
Qed.

(** Row-major offsets determine the index. *)
Lemma ix2_inj b i j i' j' :
  j < b -> j' < b -> ix2 b i j = ix2 b i' j' -> i = i' /\ j = j'.
Proof.
  unfold ix2. intros Hj Hj' E.
  destruct (lt_eq_lt_dec i i') as [[L|L]|L].
  - pose proof (Nat.mul_le_mono_r (S i) i' b L). simpl in *. lia.
  - subst i'. lia.
  - pose proof (Nat.mul_le_mono_r (S i') i b L). simpl in *. lia.
Qed.

Lemma ix3_inj b c i j k i' j' k' :
  j < b -> j' < b -> k < c -> k' < c ->
  ix3 b c i j k = ix3 b c i' j' k' -> i = i' /\ j = j' /\ k = k'.
Proof.
  unfold ix3. intros Hj Hj' Hk Hk' E.
  destruct (@ix2_inj c (i * b + j) k (i' * b + j') k' Hk Hk' E) as [E1 ->].
  destruct (@ix2_inj b i j i' j' Hj Hj' E1) as [-> ->]. auto.
Qed.

End Offsets.

Section Fills.

Lemma length_fill1 a f : length (fill1 a f) = a.
Proof. unfold fill1. rewrite length_map, length_seq. reflexivity. Qed.

Lemma nth_fill1 a f i : i < a -> nth i (fill1 a f) 0%Z = f i.
Proof.
  intros Hi. unfold fill1.
  rewrite (nth_indep _ 0%Z (f 0)) by (rewrite length_map, length_seq; exact Hi).
  rewrite map_nth, seq_nth by exact Hi. reflexivity.
Qed.

Lemma length_fill2 a b f : length (fill2 a b f) = a * b.
Proof. apply length_tab. intros. apply length_fill1. Qed.

Lemma nth_fill2 a b f i j :
  i < a -> j < b -> nth (ix2 b i j) (fill2 a b f) 0%Z = f i j.
Proof.
  intros Hi Hj. unfold ix2, fill2.
  rewrite (@nth_tab _ a b) by (intros; auto using length_fill1).
  apply nth_fill1. exact Hj.
Qed.

Lemma length_fill3 a b c f : length (fill3 a b c f) = a * b * c.
Proof.
  unfold fill3. rewrite (@length_tab _ a (b * c)); [lia|].
  intros. apply length_fill2.
Qed.

Lemma nth_fill3 a b c f i j k :
  i < a -> j < b -> k < c -> nth (ix3 b c i j k) (fill3 a b c f) 0%Z = f i j k.
Proof.
  intros Hi Hj Hk. unfold ix3, fill3.
  replace ((i * b + j) * c + k) with (i * (b * c) + ix2 c j k)
    by (unfold ix2; lia).
  rewrite (@nth_tab _ a (b * c)); auto using length_fill2, ix2_lt.
  apply nth_fill2; assumption.
Qed.

Lemma length_fill4 a b c d f : length (fill4 a b c d f) = a * b * c * d.
Proof.
  unfold fill4. rewrite (@length_tab _ a (b * c * d)); [lia|].
  intros. apply length_fill3.
Qed.

Lemma nth_fill4 a b c d f i j k l :
  i < a -> j < b -> k < c -> l < d ->
  nth (ix4 b c d i j k l) (fill4 a b c d f) 0%Z = f i j k l.
Proof.
  intros Hi Hj Hk Hl. unfold ix4, fill4.
  replace (((i * b + j) * c + k) * d + l) with (i * (b * c * d) + ix3 c d j k l)
    by (unfold ix3; lia).
  rewrite (@nth_tab _ a (b * c * d)); auto using length_fill3, ix3_lt.
  apply nth_fill3; assumption.
Qed.

End Fills.

Section Buffers.

Lemma length_add_at (buf : list Z) (idx : nat) (v : Z) :
  length (add_at buf idx v) = length buf.
Proof.
  revert idx. induction buf as [|x r IH]; intros [|i]; simpl; auto.
Qed.

Lemma nth_add_at (buf : list Z) (idx k : nat) (v : Z) :
  idx < length buf ->
  nth k (add_at buf idx v) 0%Z =
  (nth k buf 0 + (if (idx =? k)%nat then v else 0))%Z.
Proof.
  revert idx k. induction buf as [|x r IH]; intros idx k Hi; simpl in Hi; [lia|].
  destruct idx as [|i], k as [|k]; simpl; try ring.
  rewrite IH by lia. reflexivity.
Qed.

(** A counted loop whose every round adds [delta k] to one observed
    quantity adds their sum. *)
Lemma loop_acc {St : Type} (P : St -> Prop) (m : St -> Z) (n : nat)
    (body : nat -> St -> St) (delta : nat -> Z) (s : St) :
  P s ->
  (forall k s', k < n -> P s' ->
     P (body k s') /\ m (body k s') = (m s' + delta k)%Z) ->
  P (loop n body s) /\ m (loop n body s) = (m s + sumz n delta)%Z.
Proof.
  intros Hs Hstep. induction n as [|n IH]; simpl.
  - split; [exact Hs | ring].
  - destruct IH as [IP IM]; [intros; apply Hstep; auto; lia|].
    destruct (Hstep n (loop n body s)) as [SP SM]; [lia | exact IP |].
    split; [exact SP|]. rewrite SM, IM. ring.
Qed.

End Buffers.

(* ===================================================================== *)
(** ** What fold computes: the sum over covering windows *)
(* ===================================================================== *)

Section Col2im.

Variables (col : nat -> nat -> Z) (C H W K p s Ho Wo : nat).

(** The amount one column entry adds to the cell at offset [pos]. *)
Definition scatter_term (pos c i j oy ox : nat) : Z :=
  if (p <=? oy * s + i) && (oy * s + i <? H + p)
     && (p <=? ox * s + j) && (ox * s + j <? W + p)
  then if ix3 H W c (oy * s + i - p) (ox * s + j - p) =? pos
       then col ((c * K + i) * K + j) (oy * Wo + ox) else 0%Z
  else 0%Z.

Lemma length_col2im : length (col2im col C H W K p s Ho Wo) = C * H * W.
Proof.
  unfold col2im.
  set (P := fun im : list Z => length im = C * H * W).
  assert (P0 : P (repeat 0%Z (C * H * W))) by apply repeat_length.
  assert (St : forall n (b : nat -> list Z -> list Z) im,
             (forall k im', P im' -> P (b k im')) -> P im -> P (loop n b im)).
  { intros n b im Hb Him. induction n; simpl; auto. }
  apply St; [|exact P0]. intros c im1 H1.
  apply St; [|exact H1]. intros i im2 H2.
  apply St; [|exact H2]. intros j im3 H3.
  apply St; [|exact H3]. intros oy im4 H4.
  apply St; [|exact H4]. intros ox im5 H5.
  destruct (_ && _); [|exact H5].
  unfold P. rewrite length_add_at. exact H5.
Qed.

Lemma col2im_scatter (pos : nat) :
  nth pos (col2im col C H W K p s Ho Wo) 0%Z =
  sumz C (fun c => sumz K (fun i => sumz K (fun j =>
    sumz Ho (fun oy => sumz Wo (fun ox => scatter_term pos c i j oy ox))))).
Proof.
  unfold col2im.
  set (P := fun im : list Z => length im = C * H * W).
  set (m := fun im : list Z => nth pos im 0%Z).
  assert (P0 : P (repeat 0%Z (C * H * W))) by apply repeat_length.
  assert (M0 : m (repeat 0%Z (C * H * W)) = 0%Z).
  { unfold m. apply nth_repeat. }
  match goal with |- nth pos ?L _ = ?R =>
    enough (A : P L /\ m L = (m (repeat 0%Z (C * H * W)) + R)%Z)
      by (destruct A as [_ A]; rewrite M0 in A; exact A) end.
  apply (loop_acc P m); [exact P0|]. intros c im1 Hc H1.
  apply (loop_acc P m); [exact H1|]. intros i im2 Hi H2.
  apply (loop_acc P m); [exact H2|]. intros j im3 Hj H3.
  apply (loop_acc P m); [exact H3|]. intros oy im4 Hoy H4.
  apply (loop_acc P m); [exact H4|]. intros ox im5 Hox H5.
  unfold scatter_term.
  destruct (_ && _) eqn:B.
  - apply andb_prop in B as [B Bx2]. apply andb_prop in B as [B Bx1].
    apply andb_prop in B as [By1 By2].
    apply Nat.leb_le in By1, Bx1. apply Nat.ltb_lt in By2, Bx2.
    assert (ix3 H W c (oy * s + i - p) (ox * s + j - p) < length im5).
    { rewrite H5. apply ix3_lt; lia. }
    split.
    + unfold P. rewrite length_add_at. exact H5.
    + unfold m. rewrite nth_add_at by assumption. reflexivity.
  - split; [exact H5 | unfold m; ring].
Qed.

End Col2im.

(** Window [o] (of size K, stride s, padding p) covers coordinate [y]. *)
Definition covers (K p s : nat) (o y : nat) : bool :=
  (o * s <=? y + p) && (y + p <? o * s + K).

Section Windows.

Lemma sumz_pick_shift (n a b : nat) (v : nat -> Z) :
  sumz n (fun i => if a + i =? b then v i else 0%Z) =
  if (a <=? b) && (b <? a + n) then v (b - a) else 0%Z.
Proof.
  destruct (Nat.leb_spec a b) as [L|L]; simpl.
  - rewrite (@sumz_ext n _ (fun i => if i =? b - a then v i else 0%Z)).
    + rewrite sumz_pick.
      destruct (Nat.ltb_spec (b - a) n), (Nat.ltb_spec b (a + n)); try lia; reflexivity.
    + intros k _.
      destruct (Nat.eqb_spec (a + k) b), (Nat.eqb_spec k (b - a)); try lia; reflexivity.
  - apply sumz_zero. intros k _.
    destruct (Nat.eqb_spec (a + k) b); [lia | reflexivity].
Qed.

Variables (col : nat -> nat -> Z) (C H W K p s Ho Wo : nat).

Lemma scatter_term_at (c0 y0 x0 c i j oy ox : nat) :
  y0 < H -> x0 < W ->
  scatter_term col H W K p s Wo (ix3 H W c0 y0 x0) c i j oy ox =
  if c =? c0 then
    if oy * s + i =? y0 + p then
      if ox * s + j =? x0 + p
      then col ((c * K + i) * K + j) (oy * Wo + ox) else 0%Z
    else 0%Z
  else 0%Z.
Proof.
  intros Hy Hx. unfold scatter_term.
  destruct (Nat.eqb_spec c c0) as [Ec|Ec];
  destruct (Nat.eqb_spec (oy * s + i) (y0 + p)) as [Ey|Ey];
  destruct (Nat.eqb_spec (ox * s + j) (x0 + p)) as [Ex|Ex];
  destruct (Nat.leb_spec p (oy * s + i)) as [A1|A1];
  destruct (Nat.ltb_spec (oy * s + i) (H + p)) as [A2|A2];
  destruct (Nat.leb_spec p (ox * s + j)) as [A3|A3];
  destruct (Nat.ltb_spec (ox * s + j) (W + p)) as [A4|A4];
  simpl; try reflexivity; try lia;
  match goal with
  | |- context [ix3 H W ?a ?b ?d =? ix3 H W ?a' ?b' ?d'] =>
      destruct (Nat.eqb_spec (ix3 H W a b d) (ix3 H W a' b' d')) as [E|E];
      [ apply ix3_inj in E; [| lia | lia | lia | lia];
        destruct E as (E1 & E2 & E3); try reflexivity; lia
      | try reflexivity;
        exfalso; apply E; f_equal; lia ]
  end.
Qed.

(** Each pixel of the folded image is the sum, over the windows that
    cover it, of the column entry gathered from it. *)
Lemma col2im_windows (c0 y0 x0 : nat) :
  c0 < C -> y0 < H -> x0 < W ->
  nth (ix3 H W c0 y0 x0) (col2im col C H W K p s Ho Wo) 0%Z =
  sumz Ho (fun oy => sumz Wo (fun ox =>
    if covers K p s oy y0 && covers K p s ox x0
    then col ((c0 * K + (y0 + p - oy * s)) * K + (x0 + p - ox * s)) (oy * Wo + ox)
    else 0%Z)).
Proof.
  intros Hc Hy Hx. rewrite col2im_scatter.
  set (g := fun c i j oy ox =>
              if oy * s + i =? y0 + p then
                if ox * s + j =? x0 + p
                then col ((c * K + i) * K + j) (oy * Wo + ox) else 0%Z
              else 0%Z).
  rewrite (@sumz_ext C _ (fun c => if c =? c0
             then sumz K (fun i => sumz K (fun j =>
                    sumz Ho (fun oy => sumz Wo (fun ox => g c i j oy ox))))
             else 0%Z)).
  2:{ intros c _. destruct (Nat.eqb_spec c c0) as [->|Ne].
      - repeat (apply sumz_ext; intros ? _).
        rewrite scatter_term_at by assumption.
        rewrite Nat.eqb_refl. reflexivity.
      - repeat (apply sumz_zero; intros ? _).
        rewrite scatter_term_at by assumption.
        destruct (Nat.eqb_spec c c0); [contradiction | reflexivity]. }
  rewrite sumz_pick.
  replace (c0 <? C) with true by (symmetry; apply Nat.ltb_lt; exact Hc).
  (* bring the window loops outside *)
  rewrite (@sumz_ext K _ (fun i => sumz Ho (fun oy => sumz K (fun j =>
             sumz Wo (fun ox => g c0 i j oy ox)))))
    by (intros; apply sumz_swap).
  rewrite sumz_swap.
  apply sumz_ext; intros oy _.
  rewrite (@sumz_ext K _ (fun i => sumz Wo (fun ox => sumz K (fun j =>
             g c0 i j oy ox))))
    by (intros; apply sumz_swap).
  rewrite sumz_swap.
  apply sumz_ext; intros ox _.
  unfold g, covers.
  rewrite (@sumz_ext K _ (fun i => if oy * s + i =? y0 + p
             then (if (ox * s <=? x0 + p) && (x0 + p <? ox * s + K)
                   then col ((c0 * K + i) * K + (x0 + p - ox * s)) (oy * Wo + ox)
                   else 0%Z)
             else 0%Z)).
  2:{ intros i _. destruct (oy * s + i =? y0 + p).
      - apply (@sumz_pick_shift K (ox * s) (x0 + p)
                 (fun j => col ((c0 * K + i) * K + j) (oy * Wo + ox))).
      - apply sumz_zero. reflexivity. }
  rewrite (@sumz_pick_shift K (oy * s) (y0 + p)
             (fun i => if (ox * s <=? x0 + p) && (x0 + p <? ox * s + K)
                       then col ((c0 * K + i) * K + (x0 + p - ox * s)) (oy * Wo + ox)
                       else 0%Z)).
  destruct ((oy * s <=? y0 + p) && (y0 + p <? oy * s + K)); reflexivity.
Qed.

End Windows.

(* ===================================================================== *)
(** ** Reading the results of the primitives *)
(* ===================================================================== *)

Section Reads.

Lemma tab_ext {A} (n : nat) (f g : nat -> list A) :
  (forall i, i < n -> f i = g i) -> tab n f = tab n g.
Proof.
  induction n as [|n IH]; intros E; [reflexivity|].
  rewrite !tab_S, IH, E by auto. reflexivity.
Qed.

Lemma fill1_ext a f g :
  (forall i, i < a -> f i = g i) -> fill1 a f = fill1 a g.
Proof.
  intros E. unfold fill1. apply map_ext_in.
  intros i Hi. apply in_seq in Hi. apply E. lia.
Qed.

Lemma fill2_ext a b f g :
  (forall i j, i < a -> j < b -> f i j = g i j) -> fill2 a b f = fill2 a b g.
Proof. intros E. apply tab_ext. intros. apply fill1_ext. auto. Qed.

Lemma fill3_ext a b c f g :
  (forall i j k, i < a -> j < b -> k < c -> f i j k = g i j k) ->
  fill3 a b c f = fill3 a b c g.
Proof. intros E. apply tab_ext. intros. apply fill2_ext. auto. Qed.

Lemma fill4_ext a b c d f g :
  (forall i j k l, i < a -> j < b -> k < c -> l < d -> f i j k l = g i j k l) ->
  fill4 a b c d f = fill4 a b c d g.
Proof. intros E. apply tab_ext. intros. apply fill3_ext. auto. Qed.

(** A flat buffer of a*b*c cells is determined by its reads. *)
Lemma buffer_is_fill3 (a b c : nat) (l : list Z) (f : nat -> nat -> nat -> Z) :
  length l = a * b * c ->
  (forall i j k, i < a -> j < b -> k < c -> nth (ix3 b c i j k) l 0%Z = f i j k) ->
  l = fill3 a b c f.
Proof.
  intros L E.
  apply (@rows_ext _ (a * b) c _ _ 0%Z); [exact L | apply length_fill3 |].
  intros r k Hr Hk.
  destruct (Nat.eq_dec b 0) as [->|Hb]; [lia|].
  assert (Hq : r / b < a) by (apply Nat.Div0.div_lt_upper_bound; lia).
  assert (Hm : r mod b < b) by (apply Nat.mod_upper_bound; exact Hb).
  replace (r * c + k) with (ix3 b c (r / b) (r mod b) k).
  - rewrite E, nth_fill3 by assumption. reflexivity.
  - unfold ix3. rewrite (Nat.div_mod_eq r b) at 3. f_equal. lia.
Qed.

Lemma nth_sum_combine (l l' : list Z) (k : nat) :
  k < length l -> k < length l' ->
  nth k (map (fun xy => (fst xy + snd xy)%Z) (combine l l')) 0%Z =
  (nth k l 0 + nth k l' 0)%Z.
Proof.
  revert l' k. induction l as [|x r IH]; intros [|y r'] [|k] H1 H2;
    simpl in *; try lia; auto.
  apply IH; lia.
Qed.


(** Reading the six nested blocks that unfold writes. *)
Lemma nth_patches (N C K Ho Wo : nat)
    (f : nat -> nat -> nat -> nat -> nat -> nat -> Z) (n c i j oy ox : nat) :
  n < N -> c < C -> i < K -> j < K -> oy < Ho -> ox < Wo ->
  nth (ix3 (C * K * K) (Ho * Wo) n ((c * K + i) * K + j) (oy * Wo + ox))
      (tab N (fun n => tab C (fun c => tab K (fun i => tab K (fun j =>
         tab Ho (fun oy => fill1 Wo (f n c i j oy))))))) 0%Z
  = f n c i j oy ox.
Proof.
  intros Hn Hc Hi Hj Hoy Hox.
  assert (L5 : forall n c i j, length (tab Ho (fun oy => fill1 Wo (f n c i j oy))) = Ho * Wo).
  { intros. apply length_tab. intros. apply length_fill1. }
  assert (L4 : forall n c i, length (tab K (fun j => tab Ho (fun oy =>
                 fill1 Wo (f n c i j oy)))) = K * (Ho * Wo)).
  { intros. apply length_tab. intros. apply L5. }
  assert (L3 : forall n c, length (tab K (fun i => tab K (fun j => tab Ho (fun oy =>
                 fill1 Wo (f n c i j oy))))) = K * (K * (Ho * Wo))).
  { intros. apply length_tab. intros. apply L4. }
  assert (L2 : forall n, length (tab C (fun c => tab K (fun i => tab K (fun j =>
                 tab Ho (fun oy => fill1 Wo (f n c i j oy)))))) = C * (K * (K * (Ho * Wo)))).
  { intros. apply length_tab. intros. apply L3. }
  pose proof (@ix2_lt Ho Wo oy ox Hoy Hox) as B5. unfold ix2 in B5.
  pose proof (@ix2_lt K (Ho * Wo) j _ Hj B5) as B4. unfold ix2 in B4.
  pose proof (@ix2_lt K (K * (Ho * Wo)) i _ Hi B4) as B3. unfold ix2 in B3.
  pose proof (@ix2_lt C (K * (K * (Ho * Wo))) c _ Hc B3) as B2. unfold ix2 in B2.
  unfold ix3.
  replace ((n * (C * K * K) + ((c * K + i) * K + j)) * (Ho * Wo) + (oy * Wo + ox))
    with (n * (C * (K * (K * (Ho * Wo))))
          + (c * (K * (K * (Ho * Wo)))
             + (i * (K * (Ho * Wo)) + (j * (Ho * Wo) + (oy * Wo + ox))))) by ring.
  rewrite (@nth_tab _ N (C * (K * (K * (Ho * Wo))))); auto.
  rewrite (@nth_tab _ C (K * (K * (Ho * Wo)))); auto.
  rewrite (@nth_tab _ K (K * (Ho * Wo))); auto.
  rewrite (@nth_tab _ K (Ho * Wo)); auto.
  rewrite (@nth_tab _ Ho Wo); auto using length_fill1.
  apply nth_fill1. exact Hox.
Qed.

Lemma length_patches (N C K Ho Wo : nat)
    (f : nat -> nat -> nat -> nat -> nat -> nat -> Z) :
  length (tab N (fun n => tab C (fun c => tab K (fun i => tab K (fun j =>
            tab Ho (fun oy => fill1 Wo (f n c i j oy)))))))
  = N * (C * K * K) * (Ho * Wo).
Proof.
  rewrite (@length_tab _ N (C * (K * (K * (Ho * Wo))))); [ring|].
  intros. apply length_tab. intros. apply length_tab. intros.
  apply length_tab. intros. apply length_tab. intros. apply length_fill1.
Qed.

(** A sum over the rows of the patch matrix, by channel and window cell. *)
Lemma sumz_ckk (C K : nat) (f : nat -> Z) :
  sumz (C * K * K) f =
  sumz C (fun c => sumz K (fun i => sumz K (fun j => f ((c * K + i) * K + j)))).
Proof.
  rewrite sumz_prod, sumz_prod. reflexivity.
Qed.

Lemma ckk_lt (C K c i j : nat) :
  c < C -> i < K -> j < K -> (c * K + i) * K + j < C * K * K.
Proof.
  intros Hc Hi Hj.
  pose proof (@ix2_lt C K c i Hc Hi) as B. unfold ix2 in B.
  apply (@ix2_lt (C * K) K _ j B Hj).
Qed.

End Reads.

(* ===================================================================== *)
(** ** Running a call step by step *)
(* ===================================================================== *)

Ltac world_simpl :=
  cbn [ctx trace ctx_stride ctx_padding ctx_input_height ctx_input_width
       saved_tensors needs_input_grad].

Section Running.

Context {A B : Type}.

Lemma run_ret (a : A) (k : A -> M B) (w : World) :
  bind (ret a) k w = k a w.
Proof. reflexivity. Qed.

Lemma run_pure (r : result A) (a : A) (k : A -> M B) (w : World) :
  r = Ok a -> bind (pure r) k w = k a w.
Proof. intros ->. reflexivity. Qed.

Lemma run_pure_raise (r : result A) (e : exn) (k : A -> M B) (w : World) :
  r = Raise e -> bind (pure r) k w = (Raise e, w).
Proof. intros ->. reflexivity. Qed.

Lemma run_call (p : prim) (r : result A) (a : A) (k : A -> M B) (w : World) :
  r = Ok a -> bind (call p r) k w = k a (mkWorld (ctx w) (trace w ++ [p])).
Proof. intros ->. reflexivity. Qed.

Lemma run_call_raise (p : prim) (r : result A) (e : exn) (k : A -> M B) (w : World) :
  r = Raise e ->
  bind (call p r) k w = (Raise e, mkWorld (ctx w) (trace w ++ [p])).
Proof. intros ->. reflexivity. Qed.

Lemma run_attr (f : Ctx -> option A) (a : A) (k : A -> M B) (w : World) :
  f (ctx w) = Some a -> bind (attr f) k w = k a w.
Proof. intros E. unfold bind, attr. rewrite E. reflexivity. Qed.

End Running.

Section RunningUnit.

Context {B : Type}.

Lemma run_assert (c : bool) (k : unit -> M B) (w : World) :
  c = true -> bind (assert c) k w = k tt w.
Proof. intros ->. reflexivity. Qed.

Lemma run_assert_fail (c : bool) (k : unit -> M B) (w : World) :
  c = false -> bind (assert c) k w = (Raise AssertionError, w).
Proof. intros ->. reflexivity. Qed.

Lemma run_modify (f : Ctx -> Ctx) (k : unit -> M B) (w : World) :
  bind (modify_ctx f) k w = k tt (mkWorld (f (ctx w)) (trace w)).
Proof. reflexivity. Qed.

Lemma run_unpack_saved (ts : Tensor * Tensor * Tensor * option Tensor)
    (k : Tensor * Tensor * Tensor * option Tensor -> M B) (w : World) :
  saved_tensors (ctx w) = Some ts -> bind unpack_saved k w = k ts w.
Proof. intros E. unfold bind, unpack_saved. rewrite E. reflexivity. Qed.

Lemma run_needs_grad (n : nat) (v : bool) (k : bool -> M B) (w : World) :
  nth_error (needs_input_grad (ctx w)) n = Some v ->
  bind (needs_grad n) k w = k v w.
Proof. intros E. unfold bind, needs_grad. rewrite E. reflexivity. Qed.

End RunningUnit.

Lemma run_assoc {A B C : Type} (m : M A) (f : A -> M B) (k : B -> M C) (w : World) :
  bind (bind m f) k w = bind m (fun a => bind (f a) k) w.
Proof. unfold bind. destruct (m w) as [[a|e] w']; reflexivity. Qed.

(* ===================================================================== *)
(** ** The reference: cross-correlation by direct nested loops *)
(* ===================================================================== *)

(** Output entry (n, o, oy, ox): the bias of channel o plus the sum over
    input channels and window cells of padded input times weight. *)
Definition conv2d_entry (x w : Tensor) (b : option Tensor) (sn pn : nat)
    (n o oy ox : nat) : Z :=
  let C := nth 1 (shape x) 0 in
  let K := nth 2 (shape w) 0 in
  ((match b with Some bt => at1 bt o | None => 0 end) +
   sumz C (fun c => sumz K (fun i => sumz K (fun j =>
     padded x pn n c (oy * sn + i) (ox * sn + j) * at4 w o c i j))))%Z.

Definition conv2d_reference (x w : Tensor) (b : option Tensor) (s p : Z) : Tensor :=
  let N := nth 0 (shape x) 0 in
  let H := nth 2 (shape x) 0 in
  let W := nth 3 (shape x) 0 in
  let Co := nth 0 (shape w) 0 in
  let K := nth 2 (shape w) 0 in
  let Ho := Z.to_nat (out_size H p K s) in
  let Wo := Z.to_nat (out_size W p K s) in
  mkTensor [N; Co; Ho; Wo]
    (fill4 N Co Ho Wo (conv2d_entry x w b (Z.to_nat s) (Z.to_nat p))).

(* ===================================================================== *)
(** ** The primitives on the shapes the operator feeds them *)
(* ===================================================================== *)

Ltac tests_true :=
  repeat match goal with
  | |- context [(?a <? ?b)%Z] => rewrite (proj2 (Z.ltb_lt a b)) by lia
  | |- context [(?a <=? ?b)%Z] => rewrite (proj2 (Z.leb_le a b)) by lia
  | |- context [?a <? ?b] => rewrite (proj2 (Nat.ltb_lt a b)) by lia
  | |- context [?a <=? ?b] => rewrite (proj2 (Nat.leb_le a b)) by lia
  | |- context [?a =? ?b] => rewrite (proj2 (Nat.eqb_eq a b)) by lia
  end.

Section Primitives.

Lemma out_size_pos (h k : nat) (p s : Z) :
  (0 < s)%Z -> (Z.of_nat k <= Z.of_nat h + 2 * p)%Z -> (1 <= out_size h p k s)%Z.
Proof.
  intros Hs Hfit. unfold out_size.
  assert (0 <= (Z.of_nat h + 2 * p - Z.of_nat k) / s)%Z
    by (apply Z.div_pos; lia).
  lia.
Qed.

Lemma out_size_unit (h : nat) : out_size h 0 1 1 = Z.of_nat h.
Proof. unfold out_size. rewrite Z.div_1_r. lia. Qed.

Lemma covers_unit (o y : nat) : covers 1 0 1 o y = (y =? o).
Proof.
  unfold covers.
  destruct (Nat.eqb_spec y o), (Nat.leb_spec (o * 1) (y + 0)),
    (Nat.ltb_spec (y + 0) (o * 1 + 1)); simpl; try reflexivity; lia.
Qed.

(** With a 1x1 window, stride 1 and no padding, fold only reshapes. *)
Lemma fold_unit (cols : Tensor) (N Co Ho Wo : nat) :
  shape cols = [N; Co; Ho * Wo] -> 0 < Co -> 0 < Ho -> 0 < Wo ->
  fold cols (Z.of_nat Ho, Z.of_nat Wo) 1 0 1 =
  Ok (mkTensor [N; Co; Ho; Wo]
        (fill4 N Co Ho Wo (fun n o oy ox =>
           rd cols (ix3 Co (Ho * Wo) n o (oy * Wo + ox))))).
Proof.
  intros Hs HCo HHo HWo. unfold fold. rewrite Hs. cbn [fst snd].
  rewrite !Nat2Z.id, !out_size_unit, !Nat2Z.id.
  rewrite Nat.mod_1_r, Nat.div_1_r. cbn [Nat.mul Nat.add].
  tests_true. cbn [andb Z.to_nat].
  f_equal. f_equal. unfold fill4. apply tab_ext. intros n Hn.
  apply buffer_is_fill3; [apply length_col2im|].
  intros o oy ox Ho' Hoy Hox.
  rewrite col2im_windows by assumption.
  rewrite (@sumz_ext Ho _ (fun oy' => if oy' =? oy
             then rd cols (ix3 Co (Ho * Wo) n o (oy * Wo + ox)) else 0%Z)).
  - rewrite sumz_pick. tests_true. reflexivity.
  - intros oy' _. rewrite covers_unit.
    destruct (Nat.eqb_spec oy oy') as [<-|Ne].
    + rewrite Nat.eqb_refl.
      rewrite (@sumz_ext Wo _ (fun ox' => if ox' =? ox
                 then rd cols (ix3 Co (Ho * Wo) n o (oy * Wo + ox)) else 0%Z)).
      * rewrite sumz_pick. tests_true. reflexivity.
      * intros ox' _. rewrite covers_unit. cbn [andb].
        destruct (Nat.eqb_spec ox ox') as [<-|Ne'].
        -- rewrite Nat.eqb_refl. f_equal. f_equal; lia.
        -- destruct (Nat.eqb_spec ox' ox); [congruence | reflexivity].
    + destruct (Nat.eqb_spec oy' oy); [congruence|].
      apply sumz_zero. reflexivity.
Qed.

Lemma transpose12_eq (t : Tensor) (a b c : nat) :
  shape t = [a; b; c] ->
  transpose12 t =
  Ok (mkTensor [a; c; b] (fill3 a c b (fun i j k => rd t (ix3 b c i k j)))).
Proof. intros E. unfold transpose12. rewrite E. reflexivity. Qed.

Lemma t_eq (m : Tensor) (a b : nat) :
  shape m = [a; b] ->
  t_ m = Ok (mkTensor [b; a] (fill2 b a (fun i j => rd m (ix2 b j i)))).
Proof. intros E. unfold t_. rewrite E. reflexivity. Qed.

Lemma matmul_eq2 (a b : Tensor) (N A B C : nat) :
  shape a = [N; A; B] -> shape b = [B; C] ->
  matmul a b =
  Ok (mkTensor [N; A; C]
        (fill3 N A C (fun n i j =>
           sumz B (fun k => rd a (ix3 A B n i k) * rd b (ix2 C k j))%Z))).
Proof.
  intros E1 E2. unfold matmul. rewrite E1, E2, Nat.eqb_refl. reflexivity.
Qed.

Lemma matmul_eq3 (a b : Tensor) (N A B C : nat) :
  shape a = [N; A; B] -> shape b = [N; B; C] ->
  matmul a b =
  Ok (mkTensor [N; A; C]
        (fill3 N A C (fun n i j =>
           sumz B (fun k => rd a (ix3 A B n i k) * rd b (ix3 B C n k j))%Z))).
Proof.
  intros E1 E2. unfold matmul. rewrite E1, E2, !Nat.eqb_refl. reflexivity.
Qed.

Lemma expand_eq1 (t : Tensor) (n c : nat) :
  shape t = [c] ->
  expand t [n; c] = Ok (mkTensor [n; c] (fill2 n c (fun _ j => rd t (bc c j)))).
Proof.
  intros E. unfold expand, fits. rewrite E, Nat.eqb_refl. reflexivity.
Qed.

Lemma expand_eq3 (t : Tensor) (n c l : nat) :
  shape t = [n; c; 1] ->
  expand t [n; c; l] =
  Ok (mkTensor [n; c; l]
        (fill3 n c l (fun i j k => rd t (ix3 c 1 (bc n i) (bc c j) (bc 1 k))))).
Proof.
  intros E. unfold expand, fits. rewrite E, !Nat.eqb_refl.
  cbn [orb andb]. rewrite orb_true_r. reflexivity.
Qed.

Lemma unsqueeze2_eq (t : Tensor) (a b : nat) :
  shape t = [a; b] -> unsqueeze2 t = Ok (mkTensor [a; b; 1] (data t)).
Proof. intros E. unfold unsqueeze2. rewrite E. reflexivity. Qed.

Lemma add_eq (a b : Tensor) :
  shape a = shape b ->
  add a b =
  Ok (mkTensor (shape a)
        (map (fun xy => (fst xy + snd xy)%Z) (combine (data a) (data b)))).
Proof.
  intros E. unfold add.
  destruct (list_eq_dec Nat.eq_dec (shape a) (shape b)); [reflexivity | contradiction].
Qed.

Lemma sum0_eq (t : Tensor) (a b c : nat) :
  shape t = [a; b; c] ->
  sum0 t =
  Ok (mkTensor [b; c]
        (fill2 b c (fun j k => sumz a (fun i => rd t (ix3 b c i j k))))).
Proof. intros E. unfold sum0. rewrite E. reflexivity. Qed.

Lemma sum023_eq (t : Tensor) (a b c d : nat) :
  shape t = [a; b; c; d] ->
  sum023 t =
  Ok (mkTensor [b]
        (fill1 b (fun j =>
           sumz a (fun i => sumz c (fun k => sumz d (fun l =>
             rd t (ix4 b c d i j k l))))))).
Proof. intros E. unfold sum023. rewrite E. reflexivity. Qed.

Lemma bc_lt (d i : nat) : i < d -> bc d i < d.
Proof. unfold bc. destruct (Nat.eqb_spec d 1); lia. Qed.

Lemma bc_id (d i : nat) : i < d -> bc d i = i.
Proof. unfold bc. destruct (Nat.eqb_spec d 1); lia. Qed.

(** Unfolding with a 1x1 window, stride 1 and no padding only flattens
    the two spatial axes. *)
Lemma unfold_unit (g : Tensor) (N Co Ho Wo : nat) :
  shape g = [N; Co; Ho; Wo] -> 0 < Co -> 0 < Ho -> 0 < Wo ->
  exists G, unfold g 1 0 1 = Ok G /\ shape G = [N; Co; Ho * Wo] /\
    forall n o oy ox, n < N -> o < Co -> oy < Ho -> ox < Wo ->
      rd G (ix3 Co (Ho * Wo) n o (oy * Wo + ox)) = at4 g n o oy ox.
Proof.
  intros Hs HCo HHo HWo. unfold unfold. rewrite Hs.
  rewrite !out_size_unit, !Nat2Z.id. tests_true. cbn [andb].
  change (Z.to_nat 1) with 1. change (Z.to_nat 0) with 0.
  eexists. split; [reflexivity|]. split.
  - cbn [shape]. rewrite !Nat.mul_1_r. reflexivity.
  - intros n o oy ox Hn Ho' Hoy Hox. unfold rd. cbn [data].
    pose proof (@nth_patches N Co 1 Ho Wo
                  (fun n c i j oy ox => padded g 0 n c (oy * 1 + i) (ox * 1 + j))
                  n o 0 0 oy ox Hn Ho' Nat.lt_0_1 Nat.lt_0_1 Hoy Hox) as E.
    replace (Co * 1 * 1) with Co in E by lia.
    replace ((o * 1 + 0) * 1 + 0) with o in E by lia.
    rewrite E. unfold padded. rewrite Hs. tests_true. cbn [andb].
    f_equal; lia.
Qed.

(** fold on the columns of an image: pixel (c, y, x) receives, from each
    window covering it, the column entry at the pixel's place in that
    window. *)
Lemma fold_windows (cols : Tensor) (N C H W K : nat) (p s : Z) :
  let Ho := Z.to_nat (out_size H p K s) in
  let Wo := Z.to_nat (out_size W p K s) in
  shape cols = [N; C * K * K; Ho * Wo] ->
  0 < C -> 0 < H -> 0 < W -> 0 < K -> (0 < s)%Z -> (0 <= p)%Z ->
  (Z.of_nat K <= Z.of_nat H + 2 * p)%Z ->
  (Z.of_nat K <= Z.of_nat W + 2 * p)%Z ->
  fold cols (Z.of_nat H, Z.of_nat W) K p s =
  Ok (mkTensor [N; C; H; W]
        (fill4 N C H W (fun n c y x =>
           sumz Ho (fun oy => sumz Wo (fun ox =>
             if covers K (Z.to_nat p) (Z.to_nat s) oy y
                && covers K (Z.to_nat p) (Z.to_nat s) ox x
             then rd cols (ix3 (C * K * K) (Ho * Wo) n
                             ((c * K + (y + Z.to_nat p - oy * Z.to_nat s)) * K
                              + (x + Z.to_nat p - ox * Z.to_nat s))
                             (oy * Wo + ox))
             else 0%Z))))).
Proof.
  intros Ho Wo Hs HC HH HW HK Hst Hp FH FW.
  pose proof (@out_size_pos H K p s Hst FH) as PH.
  pose proof (@out_size_pos W K p s Hst FW) as PW.
  assert (HKK : 0 < K * K) by nia.
  assert (HCKK : 0 < C * K * K) by nia.
  unfold fold. rewrite Hs. cbn [fst snd]. rewrite !Nat2Z.id.
  fold Ho Wo.
  replace (C * K * K) with (C * (K * K)) by ring.
  rewrite Nat.Div0.mod_mul, Nat.div_mul by lia.
  rewrite Nat.eqb_refl, (Nat.eqb_refl (Ho * Wo)).
  tests_true. cbn [andb].
  f_equal. f_equal. unfold fill4. apply tab_ext. intros n Hn.
  apply buffer_is_fill3; [apply length_col2im|].
  intros c y x Hc Hy Hx.
  rewrite col2im_windows by assumption. reflexivity.
Qed.

Lemma view4_eq (t : Tensor) (Co C K : nat) :
  shape t = [Co; C * K * K] -> 0 < Co -> 0 < K ->
  view4 t Co K K = Ok (mkTensor [Co; C; K; K] (data t)).
Proof.
  intros E HCo HK. unfold view4. rewrite E. cbn [numel fold_right].
  assert (0 < Co * K * K) by nia.
  replace (Co * (C * K * K * 1)) with (C * (Co * K * K)) by ring.
  rewrite Nat.Div0.mod_mul, Nat.div_mul by lia.
  tests_true. reflexivity.
Qed.

(** A matrix with C*K*K columns, read by channel and window cell. *)
Lemma fill2_ckk (Co C K : nat) (f : nat -> nat -> Z) :
  fill2 Co (C * K * K) f =
  fill4 Co C K K (fun o c i j => f o ((c * K + i) * K + j)).
Proof.
  unfold fill2, fill4. apply tab_ext. intros o _.
  apply buffer_is_fill3.
  - rewrite length_fill1. reflexivity.
  - intros c i j Hc Hi Hj. unfold ix3.
    apply nth_fill1. apply ckk_lt; assumption.
Qed.

End Primitives.

(* ===================================================================== *)
(** ** The forward pass on a valid call *)
(* ===================================================================== *)

Section Forward.

Variables (x w b : Tensor) (s p : Z) (N C H W Co K : nat).

Hypothesis shape_x : shape x = [N; C; H; W].
Hypothesis shape_w : shape w = [Co; C; K; K].
Hypothesis shape_b : shape b = [Co].
Hypothesis pos_C : 0 < C.
Hypothesis pos_H : 0 < H.
Hypothesis pos_W : 0 < W.
Hypothesis pos_K : 0 < K.
Hypothesis pos_Co : 0 < Co.
Hypothesis pos_s : (0 < s)%Z.
Hypothesis nonneg_p : (0 <= p)%Z.
Hypothesis fit_H : (Z.of_nat K <= Z.of_nat H + 2 * p)%Z.
Hypothesis fit_W : (Z.of_nat K <= Z.of_nat W + 2 * p)%Z.

Let Ho := Z.to_nat (out_size H p K s).
Let Wo := Z.to_nat (out_size W p K s).

(** The tensors the forward pass caches. *)
Definition patches_of : Tensor :=
  mkTensor [N; C * K * K; Ho * Wo]
    (tab N (fun n => tab C (fun c => tab K (fun i => tab K (fun j =>
       tab Ho (fun oy => fill1 Wo (fun ox =>
         padded x (Z.to_nat p) n c (oy * Z.to_nat s + i) (ox * Z.to_nat s + j)))))))).

Definition flat_weight_of : Tensor := mkTensor [Co; C * K * K] (data w).

Lemma Ho_pos : 0 < Ho.
Proof. pose proof (@out_size_pos H K p s pos_s fit_H). unfold Ho. lia. Qed.

Lemma Wo_pos : 0 < Wo.
Proof. pose proof (@out_size_pos W K p s pos_s fit_W). unfold Wo. lia. Qed.

Lemma unfold_input : unfold x K p s = Ok patches_of.
Proof.
  pose proof (@out_size_pos H K p s pos_s fit_H).
  pose proof (@out_size_pos W K p s pos_s fit_W).
  unfold unfold. rewrite shape_x. tests_true. reflexivity.
Qed.

Lemma view_weight : view2 w Co = Ok flat_weight_of.
Proof.
  unfold view2. rewrite shape_w. cbn [numel fold_right].
  replace (Co * (C * (K * (K * 1)))) with (C * K * K * Co) by ring.
  rewrite Nat.Div0.mod_mul, Nat.div_mul by lia.
  tests_true. reflexivity.
Qed.

Lemma rd_patches (n c i j oy ox : nat) :
  n < N -> c < C -> i < K -> j < K -> oy < Ho -> ox < Wo ->
  rd patches_of (ix3 (C * K * K) (Ho * Wo) n ((c * K + i) * K + j) (oy * Wo + ox))
  = padded x (Z.to_nat p) n c (oy * Z.to_nat s + i) (ox * Z.to_nat s + j).
Proof.
  intros. unfold rd, patches_of. cbn [data].
  apply (@nth_patches N C K Ho Wo
           (fun n c i j oy ox =>
              padded x (Z.to_nat p) n c (oy * Z.to_nat s + i) (ox * Z.to_nat s + j)));
    assumption.
Qed.

Lemma rd_flat_weight (o c i j : nat) :
  rd flat_weight_of (ix2 (C * K * K) o ((c * K + i) * K + j)) = at4 w o c i j.
Proof.
  unfold rd, at4, rd, flat_weight_of. rewrite shape_w. cbn [data nth].
  f_equal. unfold ix2, ix4. ring.
Qed.

(** The output before folding: entry (n, o, l). *)
Lemma forward_entry (n o oy ox : nat) :
  n < N -> o < Co -> oy < Ho -> ox < Wo ->
  sumz (C * K * K) (fun k =>
    (rd patches_of (ix3 (C * K * K) (Ho * Wo) n k (oy * Wo + ox)) *
     rd flat_weight_of (ix2 (C * K * K) o k))%Z)
  = sumz C (fun c => sumz K (fun i => sumz K (fun j =>
      (padded x (Z.to_nat p) n c (oy * Z.to_nat s + i) (ox * Z.to_nat s + j)
       * at4 w o c i j)%Z))).
Proof.
  intros Hn Ho' Hoy Hox. rewrite sumz_ckk.
  apply sumz_ext; intros c Hc. apply sumz_ext; intros i Hi.
  apply sumz_ext; intros j Hj.
  rewrite rd_patches, rd_flat_weight by assumption. reflexivity.
Qed.

Definition trace_forward : list prim :=
  [PUnfold; PView; PTranspose; PTranspose; PMatmul; PTranspose;
   PExpand; PUnsqueeze; PExpand; PAdd; PFold].

Definition ctx_after_forward (needs : list bool) : Ctx :=
  mkCtx (Some s) (Some p) (Some H) (Some W)
        (Some (patches_of, flat_weight_of, w, Some b)) needs.

Lemma forward_runs (world : World) :
  CustomConv2DFunction.forward x w (Some b) (Int s) (Int p) world =
  (Ok (conv2d_reference x w (Some b) s p),
   mkWorld (ctx_after_forward (needs_input_grad (ctx world)))
           (trace world ++ trace_forward)).
Proof.
  destruct world as [[cs cp ch cw st ng] tr].
  unfold CustomConv2DFunction.forward.
  rewrite (run_pure (a := K)) by (unfold size; rewrite shape_w; reflexivity).
  rewrite (run_pure (a := K)) by (unfold size; rewrite shape_w; reflexivity).
  rewrite run_assert by apply Nat.eqb_refl.
  rewrite (run_pure (a := C)) by (unfold size; rewrite shape_x; reflexivity).
  rewrite (run_pure (a := C)) by (unfold size; rewrite shape_w; reflexivity).
  rewrite run_assert by apply Nat.eqb_refl.
  rewrite run_assert by (cbn [isinstance_int int_of andb]; apply Z.ltb_lt; exact pos_s).
  rewrite run_assert by (cbn [isinstance_int int_of andb]; apply Z.leb_le; exact nonneg_p).
  cbn [int_of]. cbv zeta.
  rewrite (run_pure (a := K)) by (unfold size; rewrite shape_w; reflexivity).
  unfold set_stride, set_padding, set_input_height, set_input_width.
  rewrite !run_modify. world_simpl.
  rewrite (run_pure (a := H)) by (unfold size; rewrite shape_x; reflexivity).
  rewrite !run_modify. world_simpl.
  rewrite (run_pure (a := W)) by (unfold size; rewrite shape_x; reflexivity).
  rewrite !run_modify. world_simpl.
  rewrite run_assert by (apply Z.leb_le; exact fit_H).
  rewrite run_assert by (apply Z.leb_le; exact fit_W).
  rewrite (run_call _ _ _ unfold_input). world_simpl.
  rewrite (run_pure (a := Co)) by (unfold size; rewrite shape_w; reflexivity).
  rewrite (run_call _ _ _ view_weight). world_simpl.
  erewrite run_call by (apply transpose12_eq; reflexivity). world_simpl.
  match goal with |- context [mkTensor [N; Ho * Wo; C * K * K] ?d] =>
    set (xt := mkTensor [N; Ho * Wo; C * K * K] d) end.
  erewrite run_call by (apply t_eq; reflexivity). world_simpl.
  match goal with |- context [mkTensor [C * K * K; Co] ?d] =>
    set (wt := mkTensor [C * K * K; Co] d) end.
  erewrite run_call
    by (apply (@matmul_eq2 xt wt N (Ho * Wo) (C * K * K) Co); reflexivity).
  world_simpl.
  match goal with |- context [mkTensor [N; Ho * Wo; Co] ?d] =>
    set (prod := mkTensor [N; Ho * Wo; Co] d) end.
  erewrite run_call by (apply (@transpose12_eq prod N (Ho * Wo) Co); reflexivity).
  world_simpl.
  match goal with |- context [mkTensor [N; Co; Ho * Wo] ?d] =>
    set (out0 := mkTensor [N; Co; Ho * Wo] d) end.
  unfold method_of. rewrite run_ret.
  change (firstn 2 (shape out0)) with [N; Co].
  change (shape out0) with [N; Co; Ho * Wo].
  erewrite run_call by (apply expand_eq1; exact shape_b). world_simpl.
  match goal with |- context [mkTensor [N; Co] ?d] =>
    set (b1 := mkTensor [N; Co] d) end.
  erewrite run_call by (apply (@unsqueeze2_eq b1 N Co); reflexivity). world_simpl.
  match goal with |- context [mkTensor [N; Co; 1] ?d] =>
    set (b2 := mkTensor [N; Co; 1] d) end.
  erewrite run_call by (apply (@expand_eq3 b2 N Co (Ho * Wo)); reflexivity).
  world_simpl.
  match goal with |- context [call PAdd (add out0 ?t)] => set (bu := t) end.
  erewrite run_call by (apply (@add_eq out0 bu); reflexivity). world_simpl.
  match goal with |- context [fold ?t] => set (out1 := t) end.
  erewrite !run_attr by reflexivity.
  change ((Z.of_nat H + 2 * p - Z.of_nat K) / s + 1)%Z with (out_size H p K s).
  change ((Z.of_nat W + 2 * p - Z.of_nat K) / s + 1)%Z with (out_size W p K s).
  pose proof (@out_size_pos H K p s pos_s fit_H) as PH.
  pose proof (@out_size_pos W K p s pos_s fit_W) as PW.
  rewrite <- (Z2Nat.id (out_size H p K s)), <- (Z2Nat.id (out_size W p K s)) by lia.
  fold Ho Wo.
  erewrite run_call
    by (apply (@fold_unit out1 N Co Ho Wo);
        [reflexivity | exact pos_Co | exact Ho_pos | exact Wo_pos]).
  world_simpl.
  unfold save_for_backward. rewrite run_modify. world_simpl. unfold ret.
  f_equal.
  2:{ unfold ctx_after_forward, trace_forward.
      rewrite <- !app_assoc. reflexivity. }
  f_equal. unfold conv2d_reference. rewrite shape_x, shape_w. cbn [nth].
  fold Ho Wo. f_equal. apply fill4_ext. intros n o oy ox Hn Ho' Hoy Hox.
  assert (Hl : oy * Wo + ox < Ho * Wo) by (apply (@ix2_lt Ho Wo); assumption).
  assert (Hk : ix3 Co (Ho * Wo) n o (oy * Wo + ox) < N * Co * (Ho * Wo))
    by (apply ix3_lt; assumption).
  unfold rd at 1. subst out1. cbn [data].
  rewrite nth_sum_combine.
  2:{ subst out0. cbn [data]. rewrite length_fill3. exact Hk. }
  2:{ subst bu. cbn [data]. rewrite length_fill3. exact Hk. }
  subst out0 bu. cbn [data]. rewrite !nth_fill3 by assumption.
  unfold conv2d_entry. rewrite shape_x, shape_w. cbn [nth].
  rewrite Z.add_comm. f_equal.
  - (* the bias term *)
    subst b2 b1. unfold rd at 1. cbn [data].
    replace (ix3 Co 1 (bc N n) (bc Co o) (bc 1 (oy * Wo + ox)))
      with (ix2 Co (bc N n) (bc Co o)) by (unfold ix3, ix2, bc; simpl; lia).
    rewrite nth_fill2 by (apply bc_lt; assumption).
    rewrite !(bc_id Ho'). reflexivity.
  - (* the matrix product *)
    subst prod. unfold rd at 1. cbn [data].
    rewrite nth_fill3 by assumption.
    rewrite <- forward_entry by assumption.
    apply sumz_ext. intros k Hk'.
    subst xt wt. unfold rd at 1 3. cbn [data].
    rewrite nth_fill3, nth_fill2 by assumption. reflexivity.
Qed.

End Forward.

(* ===================================================================== *)
(** ** The gradients, entry by entry *)
(* ===================================================================== *)

(** Row [r] of WeightFlat^T x GradOutputColumn, for the column of
    window (oy, ox) of batch element n. *)
Definition grad_patch (weight_unfold grad_output : Tensor) (n r oy ox : nat) : Z :=
  sumz (nth 0 (shape weight_unfold) 0) (fun o =>
    (at2 weight_unfold o r * at4 grad_output n o oy ox)%Z).

(** Input gradient at pixel (n, c, y, x): the sum over all windows that
    cover the pixel of the patch-gradient entry at the pixel's place in
    the window. *)
Definition grad_input_entry (weight_unfold grad_output : Tensor) (K pn sn : nat)
    (n c y x : nat) : Z :=
  sumz (nth 2 (shape grad_output) 0) (fun oy =>
  sumz (nth 3 (shape grad_output) 0) (fun ox =>
    if covers K pn sn oy y && covers K pn sn ox x
    then grad_patch weight_unfold grad_output n
           ((c * K + (y + pn - oy * sn)) * K + (x + pn - ox * sn)) oy ox
    else 0%Z)).

(** Weight gradient at (o, c, i, j): the sum over the batch and over all
    window positions of patch entry times output gradient. *)
Definition grad_weight_entry (patches grad_output : Tensor) (K : nat)
    (o c i j : nat) : Z :=
  let Wo := nth 3 (shape grad_output) 0 in
  sumz (nth 0 (shape grad_output) 0) (fun n =>
  sumz (nth 2 (shape grad_output) 0) (fun oy =>
  sumz Wo (fun ox =>
    (at3 patches n ((c * K + i) * K + j) (oy * Wo + ox)
     * at4 grad_output n o oy ox)%Z))).

(** Bias gradient at o: the sum over the batch and both spatial axes. *)
Definition grad_bias_entry (grad_output : Tensor) (o : nat) : Z :=
  sumz (nth 0 (shape grad_output) 0) (fun n =>
  sumz (nth 2 (shape grad_output) 0) (fun oy =>
  sumz (nth 3 (shape grad_output) 0) (fun ox => at4 grad_output n o oy ox))).

Definition trace_backward (with_bias : bool) : list prim :=
  [PUnfold; PTranspose; PMatmul; PTranspose; PFold;
   PTranspose; PMatmul; PTranspose; PSum; PView]
  ++ (if with_bias then [PSum] else []).

(** Whether line 117 takes the bias branch. *)
Definition wants_bias_grad (bias : option Tensor) (needs : list bool) : bool :=
  match bias with
  | Some _ => nth 2 needs false
  | None => false
  end.

(* ===================================================================== *)
(** ** The backward pass on a context left by a forward pass *)
(* ===================================================================== *)

Section Backward.

Variables (patches weight_unfold weight grad_output : Tensor)
          (bias : option Tensor) (s p : Z) (N C H W Co K : nat)
          (needs : list bool) (tr : list prim).

Let Ho := Z.to_nat (out_size H p K s).
Let Wo := Z.to_nat (out_size W p K s).

Hypothesis shape_patches : shape patches = [N; C * K * K; Ho * Wo].
Hypothesis shape_wu : shape weight_unfold = [Co; C * K * K].
Hypothesis shape_w : shape weight = [Co; C; K; K].
Hypothesis shape_go : shape grad_output = [N; Co; Ho; Wo].
Hypothesis pos_C : 0 < C.
Hypothesis pos_H : 0 < H.
Hypothesis pos_W : 0 < W.
Hypothesis pos_K : 0 < K.
Hypothesis pos_Co : 0 < Co.
Hypothesis pos_s : (0 < s)%Z.
Hypothesis nonneg_p : (0 <= p)%Z.
Hypothesis fit_H : (Z.of_nat K <= Z.of_nat H + 2 * p)%Z.
Hypothesis fit_W : (Z.of_nat K <= Z.of_nat W + 2 * p)%Z.
Hypothesis needs_len : 2 < length needs.

Definition world_before_backward : World :=
  mkWorld (mkCtx (Some s) (Some p) (Some H) (Some W)
                 (Some (patches, weight_unfold, weight, bias)) needs) tr.

Definition grad_input_of : Tensor :=
  mkTensor [N; C; H; W]
    (fill4 N C H W
       (grad_input_entry weight_unfold grad_output K (Z.to_nat p) (Z.to_nat s))).

Definition grad_weight_of : Tensor :=
  mkTensor [Co; C; K; K]
    (fill4 Co C K K (grad_weight_entry patches grad_output K)).

Definition grad_bias_of : Tensor :=
  mkTensor [Co] (fill1 Co (grad_bias_entry grad_output)).

Lemma backward_runs :
  CustomConv2DFunction.backward grad_output world_before_backward =
  (Ok (Some grad_input_of, Some grad_weight_of,
       (if wants_bias_grad bias needs then Some grad_bias_of else None),
       None, None),
   mkWorld (ctx world_before_backward)
           (tr ++ trace_backward (wants_bias_grad bias needs))).
Proof.
  pose proof (@out_size_pos H K p s pos_s fit_H) as PH.
  pose proof (@out_size_pos W K p s pos_s fit_W) as PW.
  assert (HHo : 0 < Ho) by (unfold Ho; lia).
  assert (HWo : 0 < Wo) by (unfold Wo; lia).
  destruct (@unfold_unit grad_output N Co Ho Wo shape_go pos_Co HHo HWo)
    as (G & EG & SG & RG).
  unfold world_before_backward, CustomConv2DFunction.backward.
  erewrite run_unpack_saved by reflexivity. cbv beta iota.
  rewrite (run_pure (a := K)) by (unfold size; rewrite shape_w; reflexivity).
  erewrite !run_attr by reflexivity.
  rewrite (run_call _ _ _ EG). world_simpl.
  erewrite run_call by (apply (@transpose12_eq G N Co (Ho * Wo)); exact SG).
  world_simpl.
  match goal with |- context [mkTensor [N; Ho * Wo; Co] ?d] =>
    set (gt := mkTensor [N; Ho * Wo; Co] d) end.
  erewrite run_call
    by (apply (@matmul_eq2 gt weight_unfold N (Ho * Wo) Co (C * K * K));
        [reflexivity | exact shape_wu]).
  world_simpl.
  match goal with |- context [mkTensor [N; Ho * Wo; C * K * K] ?d] =>
    set (gp := mkTensor [N; Ho * Wo; C * K * K] d) end.
  erewrite run_call
    by (apply (@transpose12_eq gp N (Ho * Wo) (C * K * K)); reflexivity).
  world_simpl.
  match goal with |- context [mkTensor [N; C * K * K; Ho * Wo] ?d] =>
    set (giu := mkTensor [N; C * K * K; Ho * Wo] d) end.
  erewrite run_call
    by (apply (@fold_windows giu N C H W K p s); try assumption; reflexivity).
  world_simpl.
  match goal with |- context [Some (mkTensor [N; C; H; W] ?d)] =>
    set (gi := mkTensor [N; C; H; W] d) end.
  erewrite run_call by (apply (@transpose12_eq G N Co (Ho * Wo)); exact SG).
  world_simpl. fold gt.
  erewrite run_call
    by (apply (@matmul_eq3 patches gt N (C * K * K) (Ho * Wo) Co);
        [exact shape_patches | reflexivity]).
  world_simpl.
  match goal with |- context [mkTensor [N; C * K * K; Co] ?d] =>
    set (wp := mkTensor [N; C * K * K; Co] d) end.
  erewrite run_call
    by (apply (@transpose12_eq wp N (C * K * K) Co); reflexivity).
  world_simpl.
  match goal with |- context [mkTensor [N; Co; C * K * K] ?d] =>
    set (gwu := mkTensor [N; Co; C * K * K] d) end.
  erewrite run_call by (apply (@sum0_eq gwu N Co (C * K * K)); reflexivity).
  world_simpl.
  match goal with |- context [mkTensor [Co; C * K * K] ?d] =>
    set (summed := mkTensor [Co; C * K * K] d) end.
  rewrite (run_pure (a := Co)) by reflexivity.
  erewrite run_call
    by (apply (@view4_eq summed Co C K); [reflexivity | assumption | assumption]).
  world_simpl.
  assert (A1 : gi = grad_input_of).
  { subst gi. unfold grad_input_of. f_equal. apply fill4_ext.
    intros n c y x Hn Hc Hy Hx.
    unfold grad_input_entry. rewrite shape_go. cbn [nth]. fold Ho Wo.
    apply sumz_ext; intros oy Hoy. apply sumz_ext; intros ox Hox.
    destruct (covers K (Z.to_nat p) (Z.to_nat s) oy y) eqn:Cy; [|reflexivity].
    destruct (covers K (Z.to_nat p) (Z.to_nat s) ox x) eqn:Cx; [|reflexivity].
    cbn [andb]. unfold covers in Cy, Cx.
    apply andb_prop in Cy as [Cy1 Cy2]. apply andb_prop in Cx as [Cx1 Cx2].
    apply Nat.leb_le in Cy1, Cx1. apply Nat.ltb_lt in Cy2, Cx2.
    set (i := y + Z.to_nat p - oy * Z.to_nat s).
    set (j := x + Z.to_nat p - ox * Z.to_nat s).
    assert (Hi : i < K) by (subst i; lia).
    assert (Hj : j < K) by (subst j; lia).
    assert (Hr : (c * K + i) * K + j < C * K * K) by (apply ckk_lt; assumption).
    assert (Hl : oy * Wo + ox < Ho * Wo) by (apply (@ix2_lt Ho Wo); assumption).
    subst giu. unfold rd at 1. cbn [data]. rewrite nth_fill3 by assumption.
    subst gp. unfold rd at 1. cbn [data]. rewrite nth_fill3 by assumption.
    unfold grad_patch. rewrite shape_wu. cbn [nth].
    apply sumz_ext; intros o Ho'.
    subst gt. unfold rd at 1. cbn [data]. rewrite nth_fill3 by assumption.
    rewrite RG by assumption.
    unfold at2. rewrite shape_wu. cbn [nth]. ring. }
  assert (A2 : mkTensor [Co; C; K; K] (data summed) = grad_weight_of).
  { subst summed. cbn [data]. unfold grad_weight_of. f_equal.
    rewrite fill2_ckk. apply fill4_ext. intros o c i j Ho' Hc Hi Hj.
    assert (Hr : (c * K + i) * K + j < C * K * K) by (apply ckk_lt; assumption).
    unfold grad_weight_entry. rewrite shape_go. cbn [nth]. fold Ho Wo.
    apply sumz_ext; intros n Hn.
    subst gwu. unfold rd at 1. cbn [data]. rewrite nth_fill3 by assumption.
    subst wp. unfold rd at 1. cbn [data]. rewrite nth_fill3 by assumption.
    rewrite sumz_prod.
    apply sumz_ext; intros oy Hoy. apply sumz_ext; intros ox Hox.
    assert (Hl : oy * Wo + ox < Ho * Wo) by (apply (@ix2_lt Ho Wo); assumption).
    subst gt. unfold rd at 2. cbn [data]. rewrite nth_fill3 by assumption.
    rewrite RG by assumption.
    unfold at3. rewrite shape_patches. cbn [nth]. reflexivity. }
  rewrite A1, A2. clear A1 A2.
  unfold wants_bias_grad, trace_backward.
  destruct bias as [b0|].
  - assert (EN : nth_error needs 2 = Some (nth 2 needs false))
      by (apply nth_error_nth'; exact needs_len).
    erewrite run_needs_grad by exact EN.
    destruct (nth 2 needs false).
    + rewrite run_assoc.
      erewrite run_call by (apply (@sum023_eq grad_output N Co Ho Wo); exact shape_go).
      world_simpl. rewrite !run_ret. unfold ret. rewrite <- !app_assoc.
      replace (fill1 Co (fun j => sumz N (fun i => sumz Ho (fun k => sumz Wo
                 (fun l => rd grad_output (ix4 Co Ho Wo i j k l))))))
        with (fill1 Co (grad_bias_entry grad_output)); [reflexivity|].
      apply fill1_ext. intros o _. unfold grad_bias_entry, at4.
      rewrite shape_go. reflexivity.
    + rewrite !run_ret. unfold ret. rewrite <- !app_assoc. reflexivity.
  - rewrite !run_ret. unfold ret. rewrite <- !app_assoc. reflexivity.
Qed.

End Backward.

(* ===================================================================== *)
(** ** What a call can return and what it can raise *)
(* ===================================================================== *)

(** [ensures m ok ex]: from every world, a value [m] returns satisfies
    [ok] and an exception it raises satisfies [ex]. *)
Definition ensures {A} (m : M A) (ok : A -> Prop) (ex : exn -> Prop) : Prop :=
  forall w, match fst (m w) with
            | Ok a => ok a
            | Raise e => ex e
            end.

(** The preconditions the forward pass asserts, in its order: square
    kernel, matching channels, positive int stride, non-negative int
    padding, kernel within the padded height and width. *)
Definition preconditions (input_feats weight : Tensor) (stride padding : arg) : bool :=
  let K := nth 2 (shape weight) 0 in
  let H := nth 2 (shape input_feats) 0 in
  let W := nth 3 (shape input_feats) 0 in
  (K =? nth 3 (shape weight) 0)
  && (nth 1 (shape input_feats) 0 =? nth 1 (shape weight) 0)
  && (isinstance_int stride && (0 <? int_of stride)%Z)
  && (isinstance_int padding && (0 <=? int_of padding)%Z)
  && (Z.of_nat K <=? Z.of_nat H + 2 * int_of padding)%Z
  && (Z.of_nat K <=? Z.of_nat W + 2 * int_of padding)%Z.

Section Ensures.

Context {A B : Type}.

Lemma ensures_bind (m : M A) (k : A -> M B) (mid : A -> Prop)
    (ok : B -> Prop) (ex : exn -> Prop) :
  ensures m mid ex -> (forall a, mid a -> ensures (k a) ok ex) ->
  ensures (bind m k) ok ex.
Proof.
  intros Hm Hk w. unfold bind. specialize (Hm w).
  destruct (m w) as [[a|e] w']; simpl in *.
  - apply (Hk a Hm w').
  - exact Hm.
Qed.

Lemma ensures_ret (a : A) (ok : A -> Prop) (ex : exn -> Prop) :
  ok a -> ensures (ret a) ok ex.
Proof. intros H w. exact H. Qed.

Lemma ensures_pure (r : result A) (ok : A -> Prop) (ex : exn -> Prop) :
  match r with Ok a => ok a | Raise e => ex e end -> ensures (pure r) ok ex.
Proof. intros H w. exact H. Qed.

Lemma ensures_call (p : prim) (r : result A) (ok : A -> Prop) (ex : exn -> Prop) :
  match r with Ok a => ok a | Raise e => ex e end -> ensures (call p r) ok ex.
Proof. intros H w. exact H. Qed.

Lemma ensures_attr (f : Ctx -> option A) (ex : exn -> Prop) :
  ex AttributeError -> ensures (attr f) (fun _ => True) ex.
Proof. intros H w. unfold attr. destruct (f (ctx w)); simpl; auto. Qed.

End Ensures.

Section NeverAsserts.

(** None of the torch primitives raises an AssertionError. *)
Definition quiet {A} (r : result A) : Prop :=
  match r with Ok _ => True | Raise e => e <> AssertionError end.

Ltac quiet_by_cases f :=
  unfold quiet, f;
  repeat (cbv beta iota zeta;
          match goal with
          | |- True => exact I
          | |- _ <> _ => discriminate
          | |- context [match ?t with _ => _ end] =>
              lazymatch t with
              | context [match _ with _ => _ end] => fail
              | _ => destruct t
              end
          end).

Lemma quiet_size t k : quiet (size t k).
Proof. quiet_by_cases size. Qed.

Lemma quiet_unfold x K p s : quiet (unfold x K p s).
Proof. quiet_by_cases unfold. Qed.

Lemma quiet_fold c o K p s : quiet (fold c o K p s).
Proof. quiet_by_cases fold. Qed.

Lemma quiet_view2 t d : quiet (view2 t d).
Proof. quiet_by_cases view2. Qed.

Lemma quiet_transpose12 t : quiet (transpose12 t).
Proof. quiet_by_cases transpose12. Qed.

Lemma quiet_t m : quiet (t_ m).
Proof. quiet_by_cases t_. Qed.

Lemma quiet_matmul a b : quiet (matmul a b).
Proof. quiet_by_cases matmul. Qed.

Lemma quiet_expand t sz : quiet (expand t sz).
Proof. quiet_by_cases expand. Qed.

Lemma quiet_unsqueeze2 t : quiet (unsqueeze2 t).
Proof. quiet_by_cases unsqueeze2. Qed.

Lemma quiet_add a b : quiet (add a b).
Proof. quiet_by_cases add. Qed.

Lemma ensures_quiet {A} (p : prim) (r : result A) :
  quiet r -> ensures (call p r) (fun _ => True) (fun e => e <> AssertionError).
Proof. intros Q. apply ensures_call. destruct r; [exact I | exact Q]. Qed.

Lemma ensures_quiet_pure {A} (r : result A) :
  quiet r -> ensures (pure r) (fun _ => True) (fun e => e <> AssertionError).
Proof. intros Q. apply ensures_pure. destruct r; [exact I | exact Q]. Qed.

End NeverAsserts.

Create HintDb quiet.
#[export] Hint Resolve quiet_size quiet_unfold quiet_fold quiet_view2
  quiet_transpose12 quiet_t quiet_matmul quiet_expand quiet_unsqueeze2
  quiet_add : quiet.

Section Preconditions.

Lemma ensures_modify (f : Ctx -> Ctx) (ex : exn -> Prop) :
  ensures (modify_ctx f) (fun _ => True) ex.
Proof. intros w. exact I. Qed.

Lemma ensures_method_of (b : option Tensor) :
  ensures (method_of b) (fun _ => True) (fun e => e <> AssertionError).
Proof. intros w. destruct b; simpl; [exact I | discriminate]. Qed.

Variables (x w : Tensor) (bias : option Tensor) (stride padding : arg)
          (N C H W Co Cw K K2 : nat).

Hypothesis shape_x : shape x = [N; C; H; W].
Hypothesis shape_w : shape w = [Co; Cw; K; K2].

(** A violated precondition stops the call at an assert: no primitive
    has run, nothing has been saved for backward. *)
Lemma forward_rejects (world : World) :
  preconditions x w stride padding = false ->
  let r := CustomConv2DFunction.forward x w bias stride padding world in
  fst r = Raise AssertionError /\
  trace (snd r) = trace world /\
  saved_tensors (ctx (snd r)) = saved_tensors (ctx world).
Proof.
  unfold preconditions. rewrite shape_x, shape_w. cbn [nth]. intros V.
  destruct world as [[cs cp ch cw st ng] tr].
  unfold CustomConv2DFunction.forward. cbv zeta.
  rewrite (run_pure (a := K)) by (unfold size; rewrite shape_w; reflexivity).
  rewrite (run_pure (a := K2)) by (unfold size; rewrite shape_w; reflexivity).
  destruct (K =? K2) eqn:E1;
    [rewrite run_assert by reflexivity | rewrite run_assert_fail by reflexivity; auto].
  rewrite (run_pure (a := C)) by (unfold size; rewrite shape_x; reflexivity).
  rewrite (run_pure (a := Cw)) by (unfold size; rewrite shape_w; reflexivity).
  destruct (C =? Cw) eqn:E2;
    [rewrite run_assert by reflexivity | rewrite run_assert_fail by reflexivity; auto].
  destruct (isinstance_int stride && (0 <? int_of stride)%Z) eqn:E3;
    [rewrite run_assert by reflexivity | rewrite run_assert_fail by reflexivity; auto].
  destruct (isinstance_int padding && (0 <=? int_of padding)%Z) eqn:E4;
    [rewrite run_assert by reflexivity | rewrite run_assert_fail by reflexivity; auto].
  rewrite (run_pure (a := K)) by (unfold size; rewrite shape_w; reflexivity).
  unfold set_stride, set_padding, set_input_height, set_input_width.
  rewrite !run_modify. world_simpl.
  rewrite (run_pure (a := H)) by (unfold size; rewrite shape_x; reflexivity).
  rewrite !run_modify. world_simpl.
  rewrite (run_pure (a := W)) by (unfold size; rewrite shape_x; reflexivity).
  rewrite !run_modify. world_simpl.
  destruct (Z.of_nat K <=? Z.of_nat H + 2 * int_of padding)%Z eqn:E5;
    [rewrite run_assert by reflexivity | rewrite run_assert_fail by reflexivity; auto].
  destruct (Z.of_nat K <=? Z.of_nat W + 2 * int_of padding)%Z eqn:E6;
    [rewrite run_assert by reflexivity | rewrite run_assert_fail by reflexivity; auto].
  discriminate V.
Qed.

(** When every precondition holds, no assert fires, and nothing later in
    the call raises an AssertionError. *)
Lemma forward_accepts (world : World) :
  preconditions x w stride padding = true ->
  fst (CustomConv2DFunction.forward x w bias stride padding world)
  <> Raise AssertionError.
Proof.
  unfold preconditions. rewrite shape_x, shape_w. cbn [nth]. intros V.
  apply andb_prop in V as [V E6]. apply andb_prop in V as [V E5].
  apply andb_prop in V as [V E4]. apply andb_prop in V as [V E3].
  apply andb_prop in V as [E1 E2].
  destruct world as [[cs cp ch cw st ng] tr].
  unfold CustomConv2DFunction.forward. cbv zeta.
  rewrite (run_pure (a := K)) by (unfold size; rewrite shape_w; reflexivity).
  rewrite (run_pure (a := K2)) by (unfold size; rewrite shape_w; reflexivity).
  rewrite run_assert by exact E1.
  rewrite (run_pure (a := C)) by (unfold size; rewrite shape_x; reflexivity).
  rewrite (run_pure (a := Cw)) by (unfold size; rewrite shape_w; reflexivity).
  rewrite run_assert by exact E2.
  rewrite run_assert by exact E3.
  rewrite run_assert by exact E4.
  rewrite (run_pure (a := K)) by (unfold size; rewrite shape_w; reflexivity).
  unfold set_stride, set_padding, set_input_height, set_input_width.
  rewrite !run_modify. world_simpl.
  rewrite (run_pure (a := H)) by (unfold size; rewrite shape_x; reflexivity).
  rewrite !run_modify. world_simpl.
  rewrite (run_pure (a := W)) by (unfold size; rewrite shape_x; reflexivity).
  rewrite !run_modify. world_simpl.
  rewrite run_assert by exact E5.
  rewrite run_assert by exact E6.
  match goal with |- fst (?m ?v) <> _ =>
    assert (Q : ensures m (fun _ => True) (fun e => e <> AssertionError));
    [| specialize (Q v); destruct (fst (m v));
       [discriminate | intros X; apply Q; congruence]]
  end.
  unfold save_for_backward.
  repeat (eapply ensures_bind;
          [ first [ apply ensures_modify
                  | apply ensures_method_of
                  | apply ensures_attr; discriminate
                  | apply ensures_quiet; solve [auto with quiet]
                  | apply ensures_quiet_pure; solve [auto with quiet] ]
          | intros ? _ ]).
  intros v. exact I.
Qed.

End Preconditions.

Section PreconditionsSpec.

Variables (x w : Tensor) (stride padding : arg) (N C H W Co Cw K K2 : nat).

Hypothesis shape_x : shape x = [N; C; H; W].
Hypothesis shape_w : shape w = [Co; Cw; K; K2].

(** [preconditions] says what the design document lists. *)
Lemma preconditions_spec :
  preconditions x w stride padding = true <->
  (K = K2 /\ C = Cw /\
   (exists s, stride = Int s /\ (0 < s)%Z) /\
   (exists p, padding = Int p /\ (0 <= p)%Z /\
              (Z.of_nat K <= Z.of_nat H + 2 * p)%Z /\
              (Z.of_nat K <= Z.of_nat W + 2 * p)%Z)).
Proof.
  unfold preconditions. rewrite shape_x, shape_w. cbn [nth].
  rewrite !andb_true_iff, !Nat.eqb_eq, !Z.leb_le, Z.ltb_lt.
  split.
  - intros (((((E1 & E2) & (I1 & S1)) & (I2 & P1)) & F1) & F2).
    destruct stride as [s|]; [|discriminate].
    destruct padding as [p|]; [|discriminate].
    cbn [int_of] in *. repeat split; eauto 6.
  - intros (E1 & E2 & (s & -> & S1) & (p & -> & P1 & F1 & F2)).
    cbn [int_of isinstance_int]. repeat split; assumption.
Qed.

End PreconditionsSpec.

(* ===================================================================== *)
(** ** Concrete tensors used in the examples *)
(* ===================================================================== *)

Module Examples.

Definition ones (sh : list nat) : Tensor := mkTensor sh (repeat 1%Z (numel sh)).

Definition count_up (sh : list nat) : Tensor :=
  mkTensor sh (map Z.of_nat (seq 1 (numel sh))).

(** The scenario of the design document: all-ones 5x5 input, all-ones
    3x3 weight, zero bias. *)
Definition ones_input : Tensor := ones [1; 1; 5; 5].
Definition ones_weight : Tensor := ones [1; 1; 3; 3].
Definition zero_bias : Tensor := mkTensor [1] [0%Z].

(** One channel, 4x4 input, 3x3 kernel, stride 1: four windows, all of
    which cover the centre pixels. *)
Definition input4 : Tensor := count_up [1; 1; 4; 4].
Definition weight3 : Tensor := count_up [1; 1; 3; 3].
Definition grad2 : Tensor := mkTensor [1; 1; 2; 2] [1; 10; 100; 1000]%Z.

(** Two images, two channels, stride 2, padding 1. *)
Definition input233 : Tensor := count_up [2; 2; 3; 3].
Definition weight22 : Tensor := count_up [2; 2; 2; 2].
Definition bias2 : Tensor := mkTensor [2] [5; 7]%Z.
Definition grad22 : Tensor := count_up [2; 2; 2; 2].

Definition engine_needs : list bool := [true; true; true; false; false].

Definition zero_draws : CustomConv2d.draws :=
  CustomConv2d.mkDraws (fun _ => 0%Z) (fun _ => 0%Z).

End Examples.

(* ===================================================================== *)
(** ** Properties of the forward pass *)
(* ===================================================================== *)

Module ForwardSpec.

Import Examples.

(** C1. On an input (N,C,H,W), a weight (Co,C,K,K), a bias (Co), an
    integer stride s > 0 and padding p >= 0 with the kernel fitting the
    padded input, the forward pass returns the cross-correlation computed
    by direct nested loops, with the bias added per output channel. *)
Theorem forward_is_cross_correlation
    (x w b : Tensor) (s p : Z) (N C H W Co K : nat) (world : World) :
  shape x = [N; C; H; W] ->
  shape w = [Co; C; K; K] ->
  shape b = [Co] ->
  0 < C -> 0 < H -> 0 < W -> 0 < K -> 0 < Co ->
  (0 < s)%Z -> (0 <= p)%Z ->
  (Z.of_nat K <= Z.of_nat H + 2 * p)%Z ->
  (Z.of_nat K <= Z.of_nat W + 2 * p)%Z ->
  fst (CustomConv2DFunction.forward x w (Some b) (Int s) (Int p) world)
  = Ok (conv2d_reference x w (Some b) s p).
Proof.
  intros. erewrite forward_runs by eassumption. reflexivity.
Qed.

(** The all-ones scenario: every entry of the (1,1,3,3) output is 9. *)
Lemma forward_all_ones_gives_nine :
  fst (CustomConv2DFunction.forward ones_input ones_weight (Some zero_bias)
         (Int 1) (Int 0) (fresh_world engine_needs))
  = Ok (mkTensor [1; 1; 3; 3] (repeat 9%Z 9)).
Proof.
  rewrite (@forward_is_cross_correlation ones_input ones_weight zero_bias
             1 0 1 1 5 5 1 3);
    [vm_compute; reflexivity | try reflexivity; lia ..].
Defined.

(** C4. The output of the forward pass has shape
    (N, Co, floor((H+2p-K)/s)+1, floor((W+2p-K)/s)+1), and its storage has
    one entry per index. *)
Theorem forward_output_shape
    (x w b : Tensor) (s p : Z) (N C H W Co K : nat) (world : World) :
  shape x = [N; C; H; W] ->
  shape w = [Co; C; K; K] ->
  shape b = [Co] ->
  0 < C -> 0 < H -> 0 < W -> 0 < K -> 0 < Co ->
  (0 < s)%Z -> (0 <= p)%Z ->
  (Z.of_nat K <= Z.of_nat H + 2 * p)%Z ->
  (Z.of_nat K <= Z.of_nat W + 2 * p)%Z ->
  exists out,
    fst (CustomConv2DFunction.forward x w (Some b) (Int s) (Int p) world) = Ok out /\
    shape out = [N; Co;
                 Z.to_nat ((Z.of_nat H + 2 * p - Z.of_nat K) / s + 1);
                 Z.to_nat ((Z.of_nat W + 2 * p - Z.of_nat K) / s + 1)] /\
    wf out.
Proof.
  intros Sx Sw Sb. intros.
  exists (conv2d_reference x w (Some b) s p).
  split; [erewrite forward_runs by eassumption; reflexivity|].
  unfold conv2d_reference, wf. rewrite Sx, Sw. cbn [nth shape data].
  split; [reflexivity|].
  rewrite length_fill4. cbn [numel fold_right]. ring.
Qed.

Lemma forward_output_shape_stride2 :
  exists out,
    fst (CustomConv2DFunction.forward input233 weight22 (Some bias2)
           (Int 2) (Int 1) (fresh_world engine_needs)) = Ok out /\
    shape out = [2; 2; 2; 2] /\ wf out.
Proof.
  apply (@forward_output_shape input233 weight22 bias2 2 1 2 2 3 3 2 2);
    try reflexivity; lia.
Defined.

(** C3 (the code departs from it). With the bias absent the forward pass
    does not return: [bias.expand] is looked up on None. *)
Theorem forward_without_bias_raises :
  fst (CustomConv2DFunction.forward ones_input ones_weight None
         (Int 1) (Int 0) (fresh_world engine_needs))
  = Raise AttributeError.
Proof. vm_compute. reflexivity. Qed.

(** C5. A call that violates a precondition (non-square kernel, channel
    mismatch, stride not a positive int, padding not a non-negative int,
    kernel larger than the padded height or width) raises an
    AssertionError before any torch primitive has run and without saving
    anything for backward; a call that meets them all never raises an
    AssertionError. *)
Theorem forward_checks_preconditions
    (x w : Tensor) (bias : option Tensor) (stride padding : arg)
    (N C H W Co Cw K K2 : nat) (world : World) :
  shape x = [N; C; H; W] ->
  shape w = [Co; Cw; K; K2] ->
  let r := CustomConv2DFunction.forward x w bias stride padding world in
  let met :=
    K = K2 /\ C = Cw /\
    (exists s, stride = Int s /\ (0 < s)%Z) /\
    (exists p, padding = Int p /\ (0 <= p)%Z /\
               (Z.of_nat K <= Z.of_nat H + 2 * p)%Z /\
               (Z.of_nat K <= Z.of_nat W + 2 * p)%Z) in
  (~ met ->
     fst r = Raise AssertionError /\
     trace (snd r) = trace world /\
     saved_tensors (ctx (snd r)) = saved_tensors (ctx world))
  /\ (met -> fst r <> Raise AssertionError).
Proof.
  intros Sx Sw r met.
  pose proof (@preconditions_spec x w stride padding N C H W Co Cw K K2 Sx Sw) as PS.
  split.
  - intros V. apply (forward_rejects x w bias stride padding Sx Sw world).
    destruct (preconditions x w stride padding); [|reflexivity].
    exfalso. apply V. apply PS. reflexivity.
  - intros V. apply (forward_accepts x w bias stride padding Sx Sw world).
    apply PS. exact V.
Qed.

Lemma forward_rejects_zero_stride :
  let r := CustomConv2DFunction.forward ones_input ones_weight (Some zero_bias)
             (Int 0) (Int 0) (fresh_world engine_needs) in
  fst r = Raise AssertionError /\ trace (snd r) = [] /\
  saved_tensors (ctx (snd r)) = None.
Proof.
  apply (@forward_checks_preconditions ones_input ones_weight (Some zero_bias)
           (Int 0) (Int 0) 1 1 5 5 1 1 3 3 (fresh_world engine_needs)
           eq_refl eq_refl).
  intros (_ & _ & (s & Es & Hs) & _). inversion Es. subst s. lia.
Defined.

End ForwardSpec.

(* ===================================================================== *)
(** ** Properties of the backward pass *)
(* ===================================================================== *)

Lemma ensures_any {A} (m : M A) : ensures m (fun _ => True) (fun _ => True).
Proof. intros w. destruct (fst (m w)); exact I. Qed.

(** Whatever the context, a backward call that returns gives two
    gradients, an optional bias gradient, and None for the stride and
    padding slots. *)
Lemma backward_result_slots (grad_output : Tensor) :
  ensures (CustomConv2DFunction.backward grad_output)
          (fun g => exists gi gw gb, g = (Some gi, Some gw, gb, None, None))
          (fun _ => True).
Proof.
  unfold CustomConv2DFunction.backward.
  eapply ensures_bind; [apply ensures_any|].
  intros [[[a b] c] d] _.
  repeat (eapply ensures_bind; [apply ensures_any | intros ? _]).
  intros w. simpl. do 3 eexists. reflexivity.
Qed.

Module BackwardSpec.

Import Examples.

Section Claims.

Variables (patches weight_unfold weight grad_output : Tensor)
          (bias : option Tensor) (s p : Z) (N C H W Co K : nat)
          (needs : list bool) (tr : list prim).

Let Ho := Z.to_nat (out_size H p K s).
Let Wo := Z.to_nat (out_size W p K s).
Let world := world_before_backward patches weight_unfold weight bias s p H W needs tr.

(** C2. Each pixel of GradInput is the sum, over every window (oy, ox)
    covering it, of the entry of WeightFlat^T x GradOutputColumn(oy, ox)
    at the pixel's place in that window -- for every stride, hence also
    when the stride is below the kernel size and windows overlap. *)
Theorem grad_input_sums_covering_windows (n c y x : nat) :
  shape patches = [N; C * K * K; Ho * Wo] ->
  shape weight_unfold = [Co; C * K * K] ->
  shape weight = [Co; C; K; K] ->
  shape grad_output = [N; Co; Ho; Wo] ->
  0 < C -> 0 < H -> 0 < W -> 0 < K -> 0 < Co ->
  (0 < s)%Z -> (0 <= p)%Z ->
  (Z.of_nat K <= Z.of_nat H + 2 * p)%Z ->
  (Z.of_nat K <= Z.of_nat W + 2 * p)%Z ->
  2 < length needs ->
  n < N -> c < C -> y < H -> x < W ->
  exists gi gw gb,
    fst (CustomConv2DFunction.backward grad_output world)
    = Ok (Some gi, Some gw, gb, None, None) /\
    shape gi = [N; C; H; W] /\
    at4 gi n c y x =
    sumz Ho (fun oy => sumz Wo (fun ox =>
      if covers K (Z.to_nat p) (Z.to_nat s) oy y
         && covers K (Z.to_nat p) (Z.to_nat s) ox x
      then grad_patch weight_unfold grad_output n
             ((c * K + (y + Z.to_nat p - oy * Z.to_nat s)) * K
              + (x + Z.to_nat p - ox * Z.to_nat s)) oy ox
      else 0%Z)).
Proof.
  intros Sp Swu Sw Sg. intros.
  do 3 eexists. split; [|split].
  - unfold world. erewrite backward_runs by eassumption. reflexivity.
  - reflexivity.
  - unfold at4, rd, grad_input_of. cbn [shape data nth].
    rewrite nth_fill4 by assumption.
    unfold grad_input_entry. rewrite Sg. reflexivity.
Qed.

(** C6. GradWeight has shape (Co, C, K, K); its entry (o, c, i, j) is the
    sum over the batch and over all window positions of the cached patch
    entry (c, i, j) times the output gradient of channel o. *)
Theorem grad_weight_sums_batch_and_positions (o c i j : nat) :
  shape patches = [N; C * K * K; Ho * Wo] ->
  shape weight_unfold = [Co; C * K * K] ->
  shape weight = [Co; C; K; K] ->
  shape grad_output = [N; Co; Ho; Wo] ->
  0 < C -> 0 < H -> 0 < W -> 0 < K -> 0 < Co ->
  (0 < s)%Z -> (0 <= p)%Z ->
  (Z.of_nat K <= Z.of_nat H + 2 * p)%Z ->
  (Z.of_nat K <= Z.of_nat W + 2 * p)%Z ->
  2 < length needs ->
  o < Co -> c < C -> i < K -> j < K ->
  exists gi gw gb,
    fst (CustomConv2DFunction.backward grad_output world)
    = Ok (Some gi, Some gw, gb, None, None) /\
    shape gw = [Co; C; K; K] /\
    at4 gw o c i j =
    sumz N (fun n => sumz Ho (fun oy => sumz Wo (fun ox =>
      (at3 patches n ((c * K + i) * K + j) (oy * Wo + ox)
       * at4 grad_output n o oy ox)%Z))).
Proof.
  intros Sp Swu Sw Sg. intros.
  do 3 eexists. split; [|split].
  - unfold world. erewrite backward_runs by eassumption. reflexivity.
  - reflexivity.
  - unfold at4 at 1. unfold rd, grad_weight_of. cbn [shape data nth].
    rewrite nth_fill4 by assumption.
    unfold grad_weight_entry. rewrite Sg. reflexivity.
Qed.

(** C7. When the bias is present and its gradient is requested, GradBias
    is the vector of length Co of the sums of GradOutput over the batch
    and both spatial axes; otherwise GradBias is None and the call runs
    no further primitive for it. *)
Theorem grad_bias_sums_or_is_omitted :
  shape patches = [N; C * K * K; Ho * Wo] ->
  shape weight_unfold = [Co; C * K * K] ->
  shape weight = [Co; C; K; K] ->
  shape grad_output = [N; Co; Ho; Wo] ->
  0 < C -> 0 < H -> 0 < W -> 0 < K -> 0 < Co ->
  (0 < s)%Z -> (0 <= p)%Z ->
  (Z.of_nat K <= Z.of_nat H + 2 * p)%Z ->
  (Z.of_nat K <= Z.of_nat W + 2 * p)%Z ->
  2 < length needs ->
  exists gi gw gb,
    fst (CustomConv2DFunction.backward grad_output world)
    = Ok (Some gi, Some gw, gb, None, None) /\
    ((bias <> None /\ nth 2 needs false = true) ->
       exists t, gb = Some t /\ shape t = [Co] /\ wf t /\
         forall o, o < Co ->
           at1 t o = sumz N (fun n => sumz Ho (fun oy => sumz Wo (fun ox =>
                       at4 grad_output n o oy ox)))) /\
    ((bias = None \/ nth 2 needs false = false) ->
       gb = None /\
       trace (snd (CustomConv2DFunction.backward grad_output world))
       = tr ++ [PUnfold; PTranspose; PMatmul; PTranspose; PFold;
                PTranspose; PMatmul; PTranspose; PSum; PView]).
Proof.
  intros Sp Swu Sw Sg. intros.
  do 3 eexists. split; [|split].
  - unfold world. erewrite backward_runs by eassumption. reflexivity.
  - intros [Hb Hn].
    assert (E : wants_bias_grad bias needs = true)
      by (unfold wants_bias_grad; destruct bias; [exact Hn | contradiction]).
    rewrite E. eexists. split; [reflexivity|]. split; [reflexivity|]. split.
    + unfold wf, grad_bias_of. cbn [shape data numel fold_right].
      rewrite length_fill1. lia.
    + intros o Ho'. unfold at1, rd, grad_bias_of. cbn [data].
      rewrite nth_fill1 by exact Ho'.
      unfold grad_bias_entry. rewrite Sg. reflexivity.
  - intros Hb.
    assert (E : wants_bias_grad bias needs = false)
      by (unfold wants_bias_grad; destruct Hb as [-> | Hn];
          [reflexivity | destruct bias; [exact Hn | reflexivity]]).
    unfold world. erewrite backward_runs by eassumption.
    rewrite E. split; reflexivity.
Qed.

End Claims.

(** C8. The backward pass returns exactly the five slots (GradInput,
    GradWeight, GradBias, None, None).  Whenever it returns, whatever the
    context, its result has this form, with None -- an absent marker, not
    a zero tensor -- in the slots of stride and padding.  On a context
    left by a forward pass it does return, and the first three slots are
    the gradients themselves: the tensor of the covering-window sums, the
    tensor of the sums over the batch and the window positions, and the
    vector of the sums of the output gradient when the bias is present
    and its gradient is wanted, None otherwise. *)
Theorem backward_returns_five_slots :
  (forall (grad_output : Tensor) (world : World),
     match fst (CustomConv2DFunction.backward grad_output world) with
     | Ok g => exists gi gw gb, g = (Some gi, Some gw, gb, None, None)
     | Raise _ => True
     end)
  /\
  (forall (patches weight_unfold weight grad_output : Tensor)
          (bias : option Tensor) (s p : Z) (N C H W Co K : nat)
          (needs : list bool) (tr : list prim),
     shape patches = [N; C * K * K;
                      Z.to_nat (out_size H p K s) * Z.to_nat (out_size W p K s)] ->
     shape weight_unfold = [Co; C * K * K] ->
     shape weight = [Co; C; K; K] ->
     shape grad_output = [N; Co; Z.to_nat (out_size H p K s);
                          Z.to_nat (out_size W p K s)] ->
     0 < C -> 0 < H -> 0 < W -> 0 < K -> 0 < Co ->
     (0 < s)%Z -> (0 <= p)%Z ->
     (Z.of_nat K <= Z.of_nat H + 2 * p)%Z ->
     (Z.of_nat K <= Z.of_nat W + 2 * p)%Z ->
     2 < length needs ->
     fst (CustomConv2DFunction.backward grad_output
            (world_before_backward patches weight_unfold weight bias
               s p H W needs tr))
     = Ok (Some (grad_input_of weight_unfold grad_output s p N C H W K),
           Some (grad_weight_of patches grad_output C Co K),
           (if wants_bias_grad bias needs
            then Some (grad_bias_of grad_output Co) else None),
           None, None)).
Proof.
  split.
  - intros g w. apply (backward_result_slots g w).
  - intros. erewrite backward_runs by eassumption. reflexivity.
Qed.

(** The context the forward pass leaves on the 4x4 example, and on the
    stride-2 example. *)
Definition world4 : World :=
  snd (CustomConv2DFunction.forward input4 weight3 (Some zero_bias)
         (Int 1) (Int 0) (fresh_world engine_needs)).

Definition world233 : World :=
  snd (CustomConv2DFunction.forward input233 weight22 (Some bias2)
         (Int 2) (Int 1) (fresh_world engine_needs)).

Lemma world4_saved :
  world4 = world_before_backward (patches_of input4 1 0 1 1 4 4 3)
             (flat_weight_of weight3 1 1 3) weight3 (Some zero_bias)
             1 0 4 4 engine_needs trace_forward.
Proof. vm_compute. reflexivity. Defined.

Lemma world233_saved :
  world233 = world_before_backward (patches_of input233 2 1 2 2 3 3 2)
               (flat_weight_of weight22 2 2 2) weight22 (Some bias2)
               2 1 3 3 engine_needs trace_forward.
Proof. vm_compute. reflexivity. Defined.

(** The centre pixel (1,1) of the 4x4 input lies in all four windows; its
    gradient is the sum of the four contributions. *)
Lemma centre_pixel_sums_four_windows :
  exists gi gw gb,
    fst (CustomConv2DFunction.backward grad2 world4)
    = Ok (Some gi, Some gw, gb, None, None) /\
    at4 gi 0 0 1 1 = (5 * 1 + 4 * 10 + 2 * 100 + 1 * 1000)%Z.
Proof.
  rewrite world4_saved.
  destruct (@grad_input_sums_covering_windows
              (patches_of input4 1 0 1 1 4 4 3) (flat_weight_of weight3 1 1 3)
              weight3 grad2 (Some zero_bias) 1 0 1 1 4 4 1 3
              engine_needs trace_forward 0 0 1 1)
    as (gi & gw & gb & E & _ & V);
    try solve [reflexivity | lia | cbn [length engine_needs]; lia].
  exists gi, gw, gb. split; [exact E|].
  rewrite V. vm_compute. reflexivity.
Defined.

Lemma weight_gradient_on_stride2_example :
  exists gi gw gb,
    fst (CustomConv2DFunction.backward grad22 world233)
    = Ok (Some gi, Some gw, gb, None, None) /\
    shape gw = [2; 2; 2; 2] /\
    at4 gw 1 0 1 1 = (1 * 5 + 3 * 6 + 7 * 7 + 9 * 8 + (19 * 13 + 21 * 14 + 25 * 15 + 27 * 16))%Z.
Proof.
  rewrite world233_saved.
  destruct (@grad_weight_sums_batch_and_positions
              (patches_of input233 2 1 2 2 3 3 2) (flat_weight_of weight22 2 2 2)
              weight22 grad22 (Some bias2) 2 1 2 2 3 3 2 2
              engine_needs trace_forward 1 0 1 1)
    as (gi & gw & gb & E & S & V);
    try solve [reflexivity | lia | cbn [length engine_needs]; lia].
  exists gi, gw, gb. split; [exact E|]. split; [exact S|].
  rewrite V. vm_compute. reflexivity.
Defined.

Lemma bias_gradient_on_stride2_example :
  exists gi gw gb,
    fst (CustomConv2DFunction.backward grad22 world233)
    = Ok (Some gi, Some gw, gb, None, None) /\
    exists t, gb = Some t /\ shape t = [2] /\ at1 t 0 = 52%Z /\ at1 t 1 = 84%Z.
Proof.
  rewrite world233_saved.
  destruct (@grad_bias_sums_or_is_omitted
              (patches_of input233 2 1 2 2 3 3 2) (flat_weight_of weight22 2 2 2)
              weight22 grad22 (Some bias2) 2 1 2 2 3 3 2 2
              engine_needs trace_forward)
    as (gi & gw & gb & E & Yes & _);
    try solve [reflexivity | lia | cbn [length engine_needs]; lia].
  exists gi, gw, gb. split; [exact E|].
  destruct Yes as (t & Et & St & _ & Vt); [split; [discriminate | reflexivity]|].
  exists t. split; [exact Et|]. split; [exact St|].
  rewrite !Vt by lia. vm_compute. split; reflexivity.
Defined.

(** On the 4x4 example the five slots, entry by entry. *)
Lemma backward_slots_on_4x4_example :
  fst (CustomConv2DFunction.backward grad2 world4)
  = Ok (Some (mkTensor [1; 1; 4; 4]
                [1; 12; 23; 30; 104; 1245; 2356; 3060;
                 407; 4578; 5689; 6090; 700; 7800; 8900; 9000]%Z),
        Some (mkTensor [1; 1; 3; 3]
                [6521; 7632; 8743; 10965; 12076; 13187; 15409; 16520; 17631]%Z),
        Some (mkTensor [1] [1111]%Z),
        None, None).
Proof.
  rewrite world4_saved.
  rewrite (proj2 backward_returns_five_slots
             (patches_of input4 1 0 1 1 4 4 3) (flat_weight_of weight3 1 1 3)
             weight3 grad2 (Some zero_bias) 1%Z 0%Z 1 1 4 4 1 3
             engine_needs trace_forward)
    by solve [reflexivity | lia | cbn [length engine_needs]; lia].
  vm_compute. reflexivity.
Defined.

End BackwardSpec.

(* ===================================================================== *)
(** ** Properties of the wrapper module *)
(* ===================================================================== *)

Ltac by_cases :=
  repeat (cbv beta iota zeta;
          match goal with
          | |- context [match ?t with _ => _ end] =>
              lazymatch t with
              | context [match _ with _ => _ end] => fail
              | _ => destruct t eqn:?
              end
          end).

Section Construction.

Variables (r : CustomConv2d.draws) (ic oc : Z)
          (ks st pd dil grp : arg) (bias : bool).

(** A constructed module stores stride and padding as given and owns a
    weight of shape (out_channels, in_channels, k, k). *)
Lemma init_ok_fields (m : CustomConv2d.t) :
  CustomConv2d.init r ic oc ks st pd dil grp bias = Ok m ->
  CustomConv2d.stride m = st /\ CustomConv2d.padding m = pd /\
  CustomConv2d.dilation m = dil /\ CustomConv2d.groups m = grp /\
  shape (CustomConv2d.weight m)
  = [Z.to_nat oc; Z.to_nat ic; Z.to_nat (int_of ks); Z.to_nat (int_of ks)].
Proof.
  unfold CustomConv2d.init, CustomConv2d.reset_parameters,
    CustomConv2d.new_tensor, rbind.
  by_cases; intros E; try discriminate E; inversion E; subst m;
    cbn [CustomConv2d.stride CustomConv2d.padding CustomConv2d.dilation
         CustomConv2d.groups CustomConv2d.weight fst snd];
    repeat match goal with
           | H : Ok _ = Ok _ |- _ => inversion H; clear H; subst
           | H : (_, _) = (_, _) |- _ => inversion H; clear H; subst
           end;
    repeat split; reflexivity.
Qed.

Lemma init_assertion_iff :
  CustomConv2d.init r ic oc ks st pd dil grp bias = Raise AssertionError <->
  isinstance_int ks && isinstance_int st && isinstance_int pd = false.
Proof.
  unfold CustomConv2d.init, CustomConv2d.reset_parameters,
    CustomConv2d.new_tensor, rbind.
  destruct ks, st, pd; cbn [isinstance_int negb andb];
    split; intros E; try reflexivity; try discriminate E.
  revert E. by_cases; intros E; discriminate E.
Qed.

End Construction.

Module WrapperSpec.

Import Examples.

(** C9. Two modules built from the same arguments and the same random
    draws, differing only in dilation and groups, either both fail to
    construct with the same exception or give the same forward pass on
    every input: the forward pass never reads the two attributes. *)
Theorem dilation_and_groups_are_ignored
    (r : CustomConv2d.draws) (ic oc : Z) (ks st pd d1 g1 d2 g2 : arg)
    (bias : bool) :
  match CustomConv2d.init r ic oc ks st pd d1 g1 bias,
        CustomConv2d.init r ic oc ks st pd d2 g2 bias with
  | Ok m1, Ok m2 =>
      forall input world,
        CustomConv2d.forward m1 input world = CustomConv2d.forward m2 input world
  | Raise e1, Raise e2 => e1 = e2
  | _, _ => False
  end.
Proof.
  unfold CustomConv2d.init, rbind.
  destruct (negb (isinstance_int ks)); [reflexivity|].
  destruct (negb (isinstance_int st)); [reflexivity|].
  destruct (negb (isinstance_int pd)); [reflexivity|].
  destruct (CustomConv2d.new_tensor _) as [w|e]; [|reflexivity].
  destruct (if bias then _ else _) as [b|e]; [|reflexivity].
  destruct (CustomConv2d.reset_parameters r w b) as [wb|e]; [|reflexivity].
  intros input world. reflexivity.
Qed.

(** C10 as stated fails: with kernel size 0 and a bias, construction
    raises (the bias bound divides by sqrt(fan_in) = 0). *)
Lemma construction_fails_on_empty_kernel :
  ~ exists m,
      CustomConv2d.init zero_draws 1 1 (Int 0) (Int 1) (Int 0) (Int 1) (Int 1) true
      = Ok m.
Proof.
  intros [m E]. vm_compute in E. discriminate E.
Qed.

(** C10, amended. Construction asserts only that kernel_size, stride and
    padding are ints; with positive in_channels and kernel size and a
    non-negative out_channels it succeeds for every int stride and
    padding; a stride, padding, channel count or kernel size that
    violates the operator's preconditions shows as an AssertionError at
    the forward pass, before any primitive runs. *)
Theorem construction_checks_only_int_ness
    (r : CustomConv2d.draws) (ic oc k s p : Z) (dil grp : arg) (bias : bool) :
  (forall ks st pd,
     CustomConv2d.init r ic oc ks st pd dil grp bias = Raise AssertionError <->
     isinstance_int ks && isinstance_int st && isinstance_int pd = false)
  /\
  ((0 < ic)%Z -> (0 <= oc)%Z -> (0 < k)%Z ->
   exists m,
     CustomConv2d.init r ic oc (Int k) (Int s) (Int p) dil grp bias = Ok m /\
     CustomConv2d.stride m = Int s /\ CustomConv2d.padding m = Int p)
  /\
  (forall m input world N C H W,
     CustomConv2d.init r ic oc (Int k) (Int s) (Int p) dil grp bias = Ok m ->
     shape input = [N; C; H; W] ->
     ((s <= 0)%Z \/ (p < 0)%Z \/ C <> Z.to_nat ic \/
      (Z.of_nat H + 2 * p < Z.of_nat (Z.to_nat k))%Z \/
      (Z.of_nat W + 2 * p < Z.of_nat (Z.to_nat k))%Z) ->
     fst (CustomConv2d.forward m input world) = Raise AssertionError /\
     trace (snd (CustomConv2d.forward m input world)) = trace world).
Proof.
  split; [|split].
  - intros ks st pd. apply init_assertion_iff.
  - intros Hic Hoc Hk.
    unfold CustomConv2d.init, CustomConv2d.new_tensor, rbind.
    cbn [isinstance_int negb int_of forallb].
    tests_true. cbn [andb map].
    assert (F : forall w0 : Tensor,
              shape w0 = [Z.to_nat oc; Z.to_nat ic; Z.to_nat k; Z.to_nat k] ->
              (CustomConv2d.fan_in w0 =? 0) = false).
    { intros w0 E. unfold CustomConv2d.fan_in. rewrite E.
      cbn [nth skipn numel fold_right]. apply Nat.eqb_neq. nia. }
    unfold CustomConv2d.reset_parameters.
    destruct bias.
    + rewrite F by (destruct (existsb _ _); reflexivity).
      eexists. split; [reflexivity|]. split; reflexivity.
    + eexists. split; [reflexivity|]. split; reflexivity.
  - intros m input world N C H W E Si V.
    destruct (init_ok_fields _ _ _ _ _ _ _ _ _ E) as (Es & Ep & _ & _ & Sw).
    cbn [int_of] in Sw.
    unfold CustomConv2d.forward, custom_conv2d. rewrite Es, Ep.
    pose proof (@forward_rejects input (CustomConv2d.weight m)
                  (CustomConv2d.bias m) (Int s) (Int p) _ _ _ _ _ _ _ _ Si Sw
                  (mkWorld (fresh_ctx (needs_input_grad (ctx world))) (trace world)))
      as R.
    cbv zeta in R. destruct R as (R1 & R2 & _).
    + destruct (preconditions input (CustomConv2d.weight m) (Int s) (Int p)) eqn:P;
        [|reflexivity].
      exfalso.
      apply (@preconditions_spec input (CustomConv2d.weight m) (Int s) (Int p)
               _ _ _ _ _ _ _ _ Si Sw) in P.
      destruct P as (_ & Ec & (s' & Is & Hs) & (p' & Ip & Hp & FH & FW)).
      inversion Is. inversion Ip. subst s' p'. lia.
    + split; assumption.
Qed.

(** A module with stride 0 and padding -1 is constructed; its first
    forward pass raises. *)
Lemma zero_stride_module_fails_at_forward :
  exists m,
    CustomConv2d.init zero_draws 1 1 (Int 3) (Int 0) (Int (-1)) (Int 1) (Int 1) true
    = Ok m /\
    fst (CustomConv2d.forward m ones_input (fresh_world engine_needs))
    = Raise AssertionError.
Proof.
  destruct (@construction_checks_only_int_ness zero_draws 1 1 3 0 (-1)
              (Int 1) (Int 1) true) as (_ & Built & Late).
  destruct Built as (m & E & _); [lia | lia | lia |].
  exists m. split; [exact E|].
  apply (Late m ones_input (fresh_world engine_needs) 1 1 5 5 E eq_refl).
  left. lia.
Defined.

End WrapperSpec.

(* ===================================================================== *)
(** ** Forward followed by backward *)
(* ===================================================================== *)

(** Inner product of two tensors of one shape: the sum of the products
    of corresponding entries. *)
Definition inner (a b : Tensor) : Z :=
  sumz (length (data a)) (fun k => (rd a k * rd b k)%Z).

Section ForwardBackward.

Variables (x w b grad_output : Tensor) (s p : Z) (N C H W Co K : nat)
          (world : World).

Let Ho := Z.to_nat (out_size H p K s).
Let Wo := Z.to_nat (out_size W p K s).

Hypothesis shape_x : shape x = [N; C; H; W].
Hypothesis shape_w : shape w = [Co; C; K; K].
Hypothesis shape_b : shape b = [Co].
Hypothesis shape_go : shape grad_output = [N; Co; Ho; Wo].
Hypothesis pos_C : 0 < C.
Hypothesis pos_H : 0 < H.
Hypothesis pos_W : 0 < W.
Hypothesis pos_K : 0 < K.
Hypothesis pos_Co : 0 < Co.
Hypothesis pos_s : (0 < s)%Z.
Hypothesis nonneg_p : (0 <= p)%Z.
Hypothesis fit_H : (Z.of_nat K <= Z.of_nat H + 2 * p)%Z.
Hypothesis fit_W : (Z.of_nat K <= Z.of_nat W + 2 * p)%Z.
Hypothesis needs_len : 2 < length (needs_input_grad (ctx world)).

Let after_forward : World :=
  snd (CustomConv2DFunction.forward x w (Some b) (Int s) (Int p) world).

Let cached := patches_of x s p N C H W K.
Let flat := flat_weight_of w C Co K.

(** The context a successful forward pass leaves is one the backward
    pass accepts. *)
Lemma backward_after_forward :
  CustomConv2DFunction.backward grad_output after_forward =
  (Ok (Some (grad_input_of flat grad_output s p N C H W K),
       Some (grad_weight_of cached grad_output C Co K),
       (if nth 2 (needs_input_grad (ctx world)) false
        then Some (grad_bias_of grad_output Co) else None),
       None, None),
   mkWorld (ctx after_forward)
           ((trace world ++ trace_forward)
            ++ trace_backward (nth 2 (needs_input_grad (ctx world)) false))).
Proof.
  unfold after_forward.
  rewrite (@forward_runs x w b s p N C H W Co K) by assumption.
  cbn [snd].
  apply (@backward_runs cached flat w grad_output (Some b) s p N C H W Co K
           (needs_input_grad (ctx world)) (trace world ++ trace_forward));
    try assumption; reflexivity.
Qed.

(** Entries of the two gradients in terms of the original input and
    weight rather than the cached copies. *)
Lemma grad_weight_entry_padded (o c i j : nat) :
  o < Co -> c < C -> i < K -> j < K ->
  grad_weight_entry cached grad_output K o c i j =
  sumz N (fun n => sumz Ho (fun oy => sumz Wo (fun ox =>
    (padded x (Z.to_nat p) n c (oy * Z.to_nat s + i) (ox * Z.to_nat s + j)
     * at4 grad_output n o oy ox)%Z))).
Proof.
  intros Ho' Hc Hi Hj. unfold grad_weight_entry. rewrite shape_go.
  cbn [nth]. fold Ho Wo.
  apply sumz_ext; intros n Hn. apply sumz_ext; intros oy Hoy.
  apply sumz_ext; intros ox Hox.
  change (at3 cached n ((c * K + i) * K + j) (oy * Wo + ox))
    with (rd (patches_of x s p N C H W K)
            (ix3 (C * K * K) (Ho * Wo) n ((c * K + i) * K + j) (oy * Wo + ox))).
  unfold Ho, Wo.
  rewrite (@rd_patches x s p N C H W K n c i j oy ox) by assumption.
  reflexivity.
Qed.

Lemma grad_patch_weight (n c i j oy ox : nat) :
  grad_patch flat grad_output n ((c * K + i) * K + j) oy ox =
  sumz Co (fun o => (at4 w o c i j * at4 grad_output n o oy ox)%Z).
Proof.
  unfold grad_patch, flat. cbn [shape flat_weight_of nth].
  apply sumz_ext; intros o _.
  change (at2 (flat_weight_of w C Co K) o ((c * K + i) * K + j))
    with (rd (flat_weight_of w C Co K) (ix2 (C * K * K) o ((c * K + i) * K + j))).
  rewrite (@rd_flat_weight w C Co K shape_w). reflexivity.
Qed.

End ForwardBackward.

(* ===================================================================== *)
(** ** The backward pass is the transpose of the forward pass *)
(* ===================================================================== *)

(** Exchange the sums at depth [d] and [d+1] on the left of an equation. *)
Tactic Notation "swap_at" integer(d) :=
  etransitivity;
  [ do d (apply sumz_ext; intros ? _); apply sumz_swap | ].

Section SumRules.

Lemma sumz_scale_r (n : nat) (c : Z) (f : nat -> Z) :
  sumz n (fun k => (f k * c)%Z) = (sumz n f * c)%Z.
Proof. induction n as [|n IH]; simpl; [ring | rewrite IH; ring]. Qed.

Lemma sumz_if (n : nat) (c : bool) (f : nat -> Z) :
  (if c then sumz n f else 0%Z) = sumz n (fun k => if c then f k else 0%Z).
Proof. destruct c; [reflexivity | symmetry; apply sumz_zero; reflexivity]. Qed.

Lemma sumz_ix4 (a b c d : nat) (f : nat -> Z) :
  sumz (a * b * c * d) f =
  sumz a (fun i => sumz b (fun j => sumz c (fun k => sumz d (fun l =>
    f (ix4 b c d i j k l))))).
Proof. rewrite !sumz_prod. reflexivity. Qed.

Lemma numel4 (a b c d : nat) : numel [a; b; c; d] = a * b * c * d.
Proof. cbn [numel fold_right]. ring. Qed.

(** Window cell i of window a meets pixel y exactly when a + i = y + p:
    summing over the cells of a window, or over the pixels it covers,
    is the same. *)
Lemma reindex_window (K H p a : nat) (phi : nat -> nat -> Z) :
  sumz K (fun i => if (p <=? a + i) && (a + i <? H + p)
                   then phi (a + i - p) i else 0%Z) =
  sumz H (fun y => if (a <=? y + p) && (y + p <? a + K)
                   then phi y (y + p - a) else 0%Z).
Proof.
  transitivity (sumz K (fun i => sumz H (fun y =>
                  if a + i =? y + p then phi y i else 0%Z))).
  - apply sumz_ext; intros i _.
    rewrite (@sumz_ext H _ (fun y => if y =? a + i - p
               then (if p <=? a + i then phi y i else 0%Z) else 0%Z)).
    + rewrite sumz_pick.
      destruct (Nat.leb_spec p (a + i)), (Nat.ltb_spec (a + i) (H + p)),
        (Nat.ltb_spec (a + i - p) H); simpl; try reflexivity; lia.
    + intros y _.
      destruct (Nat.eqb_spec (a + i) (y + p)), (Nat.eqb_spec y (a + i - p)),
        (Nat.leb_spec p (a + i)); try reflexivity; lia.
  - rewrite sumz_swap. apply sumz_ext; intros y _.
    apply (@sumz_pick_shift K a (y + p) (phi y)).
Qed.

End SumRules.

Section Transpose.

Variables (x w : Tensor) (N C H W Co K pn sn : nat).

Hypothesis shape_x : shape x = [N; C; H; W].

(** The receptive field of window (oy, ox), paired with any function of
    the window cell, read as a sum over the pixels the window covers. *)
Lemma window_as_pixels (n c oy ox : nat) (G : nat -> nat -> Z) :
  sumz K (fun i => sumz K (fun j =>
    (padded x pn n c (oy * sn + i) (ox * sn + j) * G i j)%Z)) =
  sumz H (fun y => sumz W (fun x' =>
    (at4 x n c y x' *
     (if covers K pn sn oy y && covers K pn sn ox x'
      then G (y + pn - oy * sn)%nat (x' + pn - ox * sn)%nat else 0))%Z)).
Proof.
  unfold padded, covers. rewrite shape_x.
  rewrite (@sumz_ext K _ (fun i =>
             if (pn <=? oy * sn + i) && (oy * sn + i <? H + pn)
             then sumz W (fun x' =>
                    if (ox * sn <=? x' + pn) && (x' + pn <? ox * sn + K)
                    then (at4 x n c (oy * sn + i - pn) x'
                          * G i (x' + pn - ox * sn)%nat)%Z
                    else 0%Z)
             else 0%Z)).
  - rewrite (@reindex_window K H pn (oy * sn)
               (fun y i => sumz W (fun x' =>
                  if (ox * sn <=? x' + pn) && (x' + pn <? ox * sn + K)
                  then (at4 x n c y x' * G i (x' + pn - ox * sn)%nat)%Z
                  else 0%Z))).
    apply sumz_ext; intros y _.
    destruct ((oy * sn <=? y + pn) && (y + pn <? oy * sn + K)).
    + apply sumz_ext; intros x' _. cbn [andb].
      destruct ((ox * sn <=? x' + pn) && (x' + pn <? ox * sn + K)); ring.
    + symmetry. apply sumz_zero. intros x' _. cbn [andb]. ring.
  - intros i _.
    destruct ((pn <=? oy * sn + i) && (oy * sn + i <? H + pn)) eqn:Y.
    + rewrite <- (@reindex_window K W pn (ox * sn)
                    (fun x' j => (at4 x n c (oy * sn + i - pn) x' * G i j)%Z)).
      apply sumz_ext; intros j _. cbn [andb].
      destruct ((pn <=? ox * sn + j) && (ox * sn + j <? W + pn));
        [reflexivity | ring].
    + apply sumz_zero. intros j _. cbn [andb]. ring.
Qed.

End Transpose.

Section Gradient.

Variables (x w b grad_output : Tensor) (s p : Z) (N C H W Co K : nat).

Let Ho := Z.to_nat (out_size H p K s).
Let Wo := Z.to_nat (out_size W p K s).
Let pn := Z.to_nat p.
Let sn := Z.to_nat s.

Hypothesis shape_x : shape x = [N; C; H; W].
Hypothesis shape_w : shape w = [Co; C; K; K].
Hypothesis shape_b : shape b = [Co].
Hypothesis shape_go : shape grad_output = [N; Co; Ho; Wo].
Hypothesis wf_x : wf x.
Hypothesis wf_w : wf w.
Hypothesis wf_b : wf b.

Let output := conv2d_reference x w (Some b) s p.
Let grad_input := grad_input_of (flat_weight_of w C Co K) grad_output s p N C H W K.
Let grad_weight := grad_weight_of (patches_of x s p N C H W K) grad_output C Co K.
Let grad_bias := grad_bias_of grad_output Co.

Lemma sumz_plus2 (a c : nat) (f g : nat -> nat -> Z) :
  sumz a (fun i => sumz c (fun j => (f i j + g i j)%Z)) =
  (sumz a (fun i => sumz c (f i)) + sumz a (fun i => sumz c (g i)))%Z.
Proof.
  rewrite <- sumz_plus. apply sumz_ext; intros i _. apply sumz_plus.
Qed.

(** The pairing of the output with the output gradient, split into its
    bias part and its input-times-weight part. *)
Lemma pairing_split :
  inner output grad_output =
  (sumz N (fun n => sumz Co (fun o => sumz Ho (fun oy => sumz Wo (fun ox =>
     (rd b o * at4 grad_output n o oy ox)%Z))))
   + sumz N (fun n => sumz Co (fun o => sumz Ho (fun oy => sumz Wo (fun ox =>
       sumz C (fun c => sumz K (fun i => sumz K (fun j =>
         (padded x pn n c (oy * sn + i) (ox * sn + j) * at4 w o c i j
          * at4 grad_output n o oy ox)%Z))))))))%Z.
Proof.
  unfold inner, output, conv2d_reference. rewrite shape_x, shape_w.
  cbn [nth data]. fold Ho Wo. rewrite length_fill4, sumz_ix4.
  rewrite <- sumz_plus2. apply sumz_ext; intros n Hn. apply sumz_ext; intros o Ho'.
  rewrite <- sumz_plus2. apply sumz_ext; intros oy Hoy. apply sumz_ext; intros ox Hox.
  unfold rd at 1. cbn [data]. rewrite nth_fill4 by assumption.
  unfold conv2d_entry. rewrite shape_x, shape_w. cbn [nth]. fold pn sn.
  change (rd grad_output (ix4 Co Ho Wo n o oy ox))
    with (rd grad_output (ix4 (nth 1 [N; Co; Ho; Wo] 0) (nth 2 [N; Co; Ho; Wo] 0)
                              (nth 3 [N; Co; Ho; Wo] 0) n o oy ox)).
  rewrite <- shape_go. fold (at4 grad_output n o oy ox).
  unfold at1. rewrite Z.mul_add_distr_r. f_equal.
  rewrite <- sumz_scale_r. apply sumz_ext; intros c _.
  rewrite <- sumz_scale_r. apply sumz_ext; intros i _.
  rewrite <- sumz_scale_r. reflexivity.
Qed.

Lemma bias_part :
  sumz N (fun n => sumz Co (fun o => sumz Ho (fun oy => sumz Wo (fun ox =>
    (rd b o * at4 grad_output n o oy ox)%Z)))) =
  inner b grad_bias.
Proof.
  unfold inner. rewrite wf_b, shape_b. cbn [numel fold_right]. rewrite Nat.mul_1_r.
  rewrite sumz_swap. apply sumz_ext; intros o Ho'.
  change (rd grad_bias o) with (nth o (fill1 Co (grad_bias_entry grad_output)) 0%Z).
  rewrite nth_fill1 by exact Ho'.
  unfold grad_bias_entry. rewrite shape_go. cbn [nth].
  rewrite <- sumz_scale. apply sumz_ext; intros n _.
  rewrite <- sumz_scale. apply sumz_ext; intros oy _.
  rewrite <- sumz_scale. reflexivity.
Qed.

Lemma weight_part :
  sumz N (fun n => sumz Co (fun o => sumz Ho (fun oy => sumz Wo (fun ox =>
    sumz C (fun c => sumz K (fun i => sumz K (fun j =>
      (padded x pn n c (oy * sn + i) (ox * sn + j) * at4 w o c i j
       * at4 grad_output n o oy ox)%Z))))))) =
  inner w grad_weight.
Proof.
  symmetry. unfold inner. rewrite wf_w, shape_w, numel4, sumz_ix4.
  rewrite (@sumz_ext Co _ (fun o => sumz C (fun c => sumz K (fun i => sumz K (fun j =>
             sumz N (fun n => sumz Ho (fun oy => sumz Wo (fun ox =>
               (padded x pn n c (oy * sn + i) (ox * sn + j) * at4 w o c i j
                * at4 grad_output n o oy ox)%Z)))))))).
  2:{ intros o Ho'. apply sumz_ext; intros c Hc. apply sumz_ext; intros i Hi.
      apply sumz_ext; intros j Hj.
      unfold grad_weight, grad_weight_of. unfold rd at 2. cbn [data].
      rewrite nth_fill4 by assumption.
      rewrite (@grad_weight_entry_padded x grad_output s p N C H W Co K shape_go
                 o c i j) by assumption.
      fold Ho Wo pn sn.
      change (rd w (ix4 C K K o c i j))
        with (rd w (ix4 (nth 1 [Co; C; K; K] 0) (nth 2 [Co; C; K; K] 0)
                        (nth 3 [Co; C; K; K] 0) o c i j)).
      rewrite <- shape_w. fold (at4 w o c i j).
      rewrite <- sumz_scale. apply sumz_ext; intros n _.
      rewrite <- sumz_scale. apply sumz_ext; intros oy _.
      rewrite <- sumz_scale. apply sumz_ext; intros ox _. ring. }
  (* o c i j n oy ox  -->  n o oy ox c i j *)
  swap_at 3. swap_at 2. swap_at 1. swap_at 0.
  swap_at 4. swap_at 3. swap_at 2.
  swap_at 5. swap_at 4. swap_at 3.
  reflexivity.
Qed.

Lemma input_part :
  sumz N (fun n => sumz Co (fun o => sumz Ho (fun oy => sumz Wo (fun ox =>
    sumz C (fun c => sumz K (fun i => sumz K (fun j =>
      (padded x pn n c (oy * sn + i) (ox * sn + j) * at4 w o c i j
       * at4 grad_output n o oy ox)%Z))))))) =
  inner x grad_input.
Proof.
  symmetry. unfold inner. rewrite wf_x, shape_x, numel4, sumz_ix4.
  rewrite (@sumz_ext N _ (fun n => sumz C (fun c => sumz H (fun y => sumz W (fun x' =>
             sumz Ho (fun oy => sumz Wo (fun ox => sumz Co (fun o =>
               (at4 x n c y x' *
                (if covers K pn sn oy y && covers K pn sn ox x'
                 then at4 w o c (y + pn - oy * sn) (x' + pn - ox * sn)
                      * at4 grad_output n o oy ox
                 else 0))%Z)))))))).
  2:{ intros n Hn. apply sumz_ext; intros c Hc. apply sumz_ext; intros y Hy.
      apply sumz_ext; intros x' Hx.
      unfold grad_input, grad_input_of. unfold rd at 2. cbn [data].
      rewrite nth_fill4 by assumption.
      change (rd x (ix4 C H W n c y x'))
        with (rd x (ix4 (nth 1 [N; C; H; W] 0) (nth 2 [N; C; H; W] 0)
                        (nth 3 [N; C; H; W] 0) n c y x')).
      rewrite <- shape_x. fold (at4 x n c y x').
      unfold grad_input_entry. rewrite shape_go. cbn [nth]. fold Ho Wo pn sn.
      rewrite <- sumz_scale. apply sumz_ext; intros oy _.
      rewrite <- sumz_scale. apply sumz_ext; intros ox _.
      rewrite (@grad_patch_weight w grad_output C Co K shape_w).
      rewrite sumz_if, <- sumz_scale. reflexivity. }
  (* n c y x' oy ox o  -->  n o oy ox c y x' *)
  apply sumz_ext; intros n _.
  swap_at 4. swap_at 3. swap_at 2. swap_at 1. swap_at 0.
  apply sumz_ext; intros o _.
  swap_at 2. swap_at 1. swap_at 0.
  apply sumz_ext; intros oy _.
  swap_at 2. swap_at 1. swap_at 0.
  apply sumz_ext; intros ox _.
  apply sumz_ext; intros c _.
  symmetry.
  etransitivity;
    [| apply (@window_as_pixels x N C H W K pn sn shape_x n c oy ox
                (fun i j => (at4 w o c i j * at4 grad_output n o oy ox)%Z))].
  apply sumz_ext; intros i _. apply sumz_ext; intros j _. ring.
Qed.

(** The pairing of the output with any output gradient equals the
    pairing of each argument with its own gradient plus that of the
    bias. *)
Lemma backward_transposes_forward :
  inner output grad_output = (inner x grad_input + inner b grad_bias)%Z /\
  inner output grad_output = (inner w grad_weight + inner b grad_bias)%Z.
Proof.
  rewrite pairing_split, bias_part. split.
  - rewrite input_part. ring.
  - rewrite weight_part. ring.
Qed.

End Gradient.

Module GradientSpec.

Import Examples.

Section Statements.

Variables (x w b grad_output : Tensor) (s p : Z) (N C H W Co K : nat)
          (world : World).

Let Ho := Z.to_nat (out_size H p K s).
Let Wo := Z.to_nat (out_size W p K s).
Let forward_call :=
  CustomConv2DFunction.forward x w (Some b) (Int s) (Int p) world.

(** X1. A backward pass run on the context a successful forward pass
    left, with an output gradient of the output's shape, returns;
    GradInput and GradWeight have the shapes of the input and of the
    weight, and their entries are sums over the original weight and the
    original zero-padded input. *)
Theorem backward_runs_on_forward_context :
  shape x = [N; C; H; W] ->
  shape w = [Co; C; K; K] ->
  shape b = [Co] ->
  shape grad_output = [N; Co; Ho; Wo] ->
  0 < C -> 0 < H -> 0 < W -> 0 < K -> 0 < Co ->
  (0 < s)%Z -> (0 <= p)%Z ->
  (Z.of_nat K <= Z.of_nat H + 2 * p)%Z ->
  (Z.of_nat K <= Z.of_nat W + 2 * p)%Z ->
  2 < length (needs_input_grad (ctx world)) ->
  exists out gi gw gb,
    fst forward_call = Ok out /\
    shape out = shape grad_output /\
    fst (CustomConv2DFunction.backward grad_output (snd forward_call))
    = Ok (Some gi, Some gw, gb, None, None) /\
    shape gi = shape x /\ shape gw = shape w /\
    (forall n c y x', n < N -> c < C -> y < H -> x' < W ->
       at4 gi n c y x' =
       sumz Ho (fun oy => sumz Wo (fun ox =>
         if covers K (Z.to_nat p) (Z.to_nat s) oy y
            && covers K (Z.to_nat p) (Z.to_nat s) ox x'
         then sumz Co (fun o =>
                (at4 w o c (y + Z.to_nat p - oy * Z.to_nat s)
                           (x' + Z.to_nat p - ox * Z.to_nat s)
                 * at4 grad_output n o oy ox)%Z)
         else 0%Z))) /\
    (forall o c i j, o < Co -> c < C -> i < K -> j < K ->
       at4 gw o c i j =
       sumz N (fun n => sumz Ho (fun oy => sumz Wo (fun ox =>
         (padded x (Z.to_nat p) n c (oy * Z.to_nat s + i) (ox * Z.to_nat s + j)
          * at4 grad_output n o oy ox)%Z)))).
Proof.
  intros Sx Sw Sb Sg HC HH HW HK HCo Hs Hp FH FW Hn.
  do 4 eexists.
  split; [unfold forward_call; erewrite forward_runs by eassumption; reflexivity|].
  split.
  { unfold conv2d_reference. rewrite Sx, Sw, Sg. reflexivity. }
  split.
  { unfold forward_call.
    rewrite (@backward_after_forward x w b grad_output s p N C H W Co K world)
      by assumption.
    reflexivity. }
  split; [symmetry; exact Sx|]. split; [symmetry; exact Sw|]. split.
  - intros n c y x' Hn' Hc Hy Hx.
    unfold at4 at 1. unfold rd, grad_input_of. cbn [shape data nth].
    rewrite nth_fill4 by assumption.
    unfold grad_input_entry. rewrite Sg. cbn [nth]. fold Ho Wo.
    apply sumz_ext; intros oy _. apply sumz_ext; intros ox _.
    destruct (covers _ _ _ oy y && covers _ _ _ ox x'); [|reflexivity].
    apply (@grad_patch_weight w grad_output C Co K Sw).
  - intros o c i j Ho' Hc Hi Hj.
    unfold at4 at 1. unfold rd, grad_weight_of. cbn [shape data nth].
    rewrite nth_fill4 by assumption.
    apply (@grad_weight_entry_padded x grad_output s p N C H W Co K Sg);
      assumption.
Qed.

(** X2. GradInput is the transpose of the forward pass in its input:
    pairing the output with any output gradient gives the pairing of the
    input with GradInput plus that of the bias with GradBias. *)
Theorem grad_input_is_transpose :
  shape x = [N; C; H; W] ->
  shape w = [Co; C; K; K] ->
  shape b = [Co] ->
  shape grad_output = [N; Co; Ho; Wo] ->
  wf x -> wf w -> wf b ->
  0 < C -> 0 < H -> 0 < W -> 0 < K -> 0 < Co ->
  (0 < s)%Z -> (0 <= p)%Z ->
  (Z.of_nat K <= Z.of_nat H + 2 * p)%Z ->
  (Z.of_nat K <= Z.of_nat W + 2 * p)%Z ->
  nth_error (needs_input_grad (ctx world)) 2 = Some true ->
  exists out gi gw gb,
    fst forward_call = Ok out /\
    fst (CustomConv2DFunction.backward grad_output (snd forward_call))
    = Ok (Some gi, Some gw, Some gb, None, None) /\
    inner out grad_output = (inner x gi + inner b gb)%Z.
Proof.
  intros Sx Sw Sb Sg Wx Ww Wb HC HH HW HK HCo Hs Hp FH FW Hn.
  assert (L : 2 < length (needs_input_grad (ctx world)))
    by (apply nth_error_Some; rewrite Hn; discriminate).
  assert (V : nth 2 (needs_input_grad (ctx world)) false = true)
    by (apply nth_error_nth; exact Hn).
  do 4 eexists.
  split; [unfold forward_call; erewrite forward_runs by eassumption; reflexivity|].
  split.
  { unfold forward_call.
    rewrite (@backward_after_forward x w b grad_output s p N C H W Co K world)
      by assumption.
    rewrite V. reflexivity. }
  apply (@backward_transposes_forward x w b grad_output s p N C H W Co K);
    assumption.
Qed.

(** X3. GradWeight and GradBias are the transpose of the forward pass in
    its parameters: pairing the output with any output gradient gives
    the pairing of the weight with GradWeight plus that of the bias with
    GradBias. *)
Theorem grad_weight_is_transpose :
  shape x = [N; C; H; W] ->
  shape w = [Co; C; K; K] ->
  shape b = [Co] ->
  shape grad_output = [N; Co; Ho; Wo] ->
  wf x -> wf w -> wf b ->
  0 < C -> 0 < H -> 0 < W -> 0 < K -> 0 < Co ->
  (0 < s)%Z -> (0 <= p)%Z ->
  (Z.of_nat K <= Z.of_nat H + 2 * p)%Z ->
  (Z.of_nat K <= Z.of_nat W + 2 * p)%Z ->
  nth_error (needs_input_grad (ctx world)) 2 = Some true ->
  exists out gi gw gb,
    fst forward_call = Ok out /\
    fst (CustomConv2DFunction.backward grad_output (snd forward_call))
    = Ok (Some gi, Some gw, Some gb, None, None) /\
    inner out grad_output = (inner w gw + inner b gb)%Z.
Proof.
  intros Sx Sw Sb Sg Wx Ww Wb HC HH HW HK HCo Hs Hp FH FW Hn.
  assert (L : 2 < length (needs_input_grad (ctx world)))
    by (apply nth_error_Some; rewrite Hn; discriminate).
  assert (V : nth 2 (needs_input_grad (ctx world)) false = true)
    by (apply nth_error_nth; exact Hn).
  do 4 eexists.
  split; [unfold forward_call; erewrite forward_runs by eassumption; reflexivity|].
  split.
  { unfold forward_call.
    rewrite (@backward_after_forward x w b grad_output s p N C H W Co K world)
      by assumption.
    rewrite V. reflexivity. }
  apply (@backward_transposes_forward x w b grad_output s p N C H W Co K);
    assumption.
Qed.

End Statements.

End GradientSpec.

Module GradientExamples.

Import Examples.

Lemma backward_runs_on_forward_context_stride2 :
  exists out gi gw gb,
    fst (CustomConv2DFunction.forward input233 weight22 (Some bias2)
           (Int 2) (Int 1) (fresh_world engine_needs)) = Ok out /\
    fst (CustomConv2DFunction.backward grad22
           (snd (CustomConv2DFunction.forward input233 weight22 (Some bias2)
                   (Int 2) (Int 1) (fresh_world engine_needs))))
    = Ok (Some gi, Some gw, gb, None, None) /\
    shape gi = [2; 2; 3; 3] /\ shape gw = [2; 2; 2; 2].
Proof.
  destruct (@GradientSpec.backward_runs_on_forward_context
              input233 weight22 bias2 grad22 2 1 2 2 3 3 2 2
              (fresh_world engine_needs))
    as (out & gi & gw & gb & E1 & _ & E2 & S1 & S2 & _);
    try solve [reflexivity | lia | cbn [length engine_needs fresh_world fresh_ctx
                                        needs_input_grad ctx]; lia].
  exists out, gi, gw, gb. repeat split; assumption.
Defined.

Lemma grad_input_is_transpose_stride2 :
  exists out gi gw gb,
    fst (CustomConv2DFunction.forward input233 weight22 (Some bias2)
           (Int 2) (Int 1) (fresh_world engine_needs)) = Ok out /\
    fst (CustomConv2DFunction.backward grad22
           (snd (CustomConv2DFunction.forward input233 weight22 (Some bias2)
                   (Int 2) (Int 1) (fresh_world engine_needs))))
    = Ok (Some gi, Some gw, Some gb, None, None) /\
    inner out grad22 = (inner input233 gi + inner bias2 gb)%Z.
Proof.
  apply (@GradientSpec.grad_input_is_transpose
           input233 weight22 bias2 grad22 2 1 2 2 3 3 2 2
           (fresh_world engine_needs));
    solve [reflexivity | lia].
Defined.

Lemma grad_weight_is_transpose_stride2 :
  exists out gi gw gb,
    fst (CustomConv2DFunction.forward input233 weight22 (Some bias2)
           (Int 2) (Int 1) (fresh_world engine_needs)) = Ok out /\
    fst (CustomConv2DFunction.backward grad22
           (snd (CustomConv2DFunction.forward input233 weight22 (Some bias2)
                   (Int 2) (Int 1) (fresh_world engine_needs))))
    = Ok (Some gi, Some gw, Some gb, None, None) /\
    inner out grad22 = (inner weight22 gw + inner bias2 gb)%Z.
Proof.
  apply (@GradientSpec.grad_weight_is_transpose
           input233 weight22 bias2 grad22 2 1 2 2 3 3 2 2
           (fresh_world engine_needs));
    solve [reflexivity | lia].
Defined.

End GradientExamples.

(* ===================================================================== *)
(** ** A module without bias *)
(* ===================================================================== *)

Section WithoutBias.

Variables (x w : Tensor) (s p : Z) (N C H W Co K : nat).

Hypothesis shape_x : shape x = [N; C; H; W].
Hypothesis shape_w : shape w = [Co; C; K; K].
Hypothesis pos_C : 0 < C.
Hypothesis pos_H : 0 < H.
Hypothesis pos_W : 0 < W.
Hypothesis pos_K : 0 < K.
Hypothesis pos_Co : 0 < Co.
Hypothesis pos_s : (0 < s)%Z.
Hypothesis nonneg_p : (0 <= p)%Z.
Hypothesis fit_H : (Z.of_nat K <= Z.of_nat H + 2 * p)%Z.
Hypothesis fit_W : (Z.of_nat K <= Z.of_nat W + 2 * p)%Z.

(** With the bias absent, a call that meets every precondition runs the
    unfold and the matrix product and then fails on [bias.expand]:
    nothing is saved for backward. *)
Lemma forward_without_bias (world : World) :
  CustomConv2DFunction.forward x w None (Int s) (Int p) world =
  (Raise AttributeError,
   mkWorld (mkCtx (Some s) (Some p) (Some H) (Some W)
                  (saved_tensors (ctx world)) (needs_input_grad (ctx world)))
           (trace world ++ [PUnfold; PView; PTranspose; PTranspose;
                            PMatmul; PTranspose])).
Proof.
  destruct world as [[cs cp ch cw st ng] tr].
  unfold CustomConv2DFunction.forward.
  rewrite (run_pure (a := K)) by (unfold size; rewrite shape_w; reflexivity).
  rewrite (run_pure (a := K)) by (unfold size; rewrite shape_w; reflexivity).
  rewrite run_assert by apply Nat.eqb_refl.
  rewrite (run_pure (a := C)) by (unfold size; rewrite shape_x; reflexivity).
  rewrite (run_pure (a := C)) by (unfold size; rewrite shape_w; reflexivity).
  rewrite run_assert by apply Nat.eqb_refl.
  rewrite run_assert by (cbn [isinstance_int int_of andb]; apply Z.ltb_lt; exact pos_s).
  rewrite run_assert by (cbn [isinstance_int int_of andb]; apply Z.leb_le; exact nonneg_p).
  cbn [int_of]. cbv zeta.
  rewrite (run_pure (a := K)) by (unfold size; rewrite shape_w; reflexivity).
  unfold set_stride, set_padding, set_input_height, set_input_width.
  rewrite !run_modify. world_simpl.
  rewrite (run_pure (a := H)) by (unfold size; rewrite shape_x; reflexivity).
  rewrite !run_modify. world_simpl.
  rewrite (run_pure (a := W)) by (unfold size; rewrite shape_x; reflexivity).
  rewrite !run_modify. world_simpl.
  rewrite run_assert by (apply Z.leb_le; exact fit_H).
  rewrite run_assert by (apply Z.leb_le; exact fit_W).
  erewrite run_call by (eapply unfold_input; eassumption).
  world_simpl.
  rewrite (run_pure (a := Co)) by (unfold size; rewrite shape_w; reflexivity).
  erewrite run_call by (eapply view_weight; eassumption). world_simpl.
  erewrite run_call by (apply transpose12_eq; reflexivity). world_simpl.
  erewrite run_call by (apply t_eq; reflexivity). world_simpl.
  erewrite run_call by (apply matmul_eq2; reflexivity). world_simpl.
  erewrite run_call by (apply transpose12_eq; reflexivity). world_simpl.
  unfold method_of, bind, raise. rewrite <- !app_assoc. reflexivity.
Qed.

End WithoutBias.

Module WithoutBiasSpec.

Import Examples.

(** X4. [CustomConv2d(..., bias=False)] constructs a module whose bias
    is None, and the forward pass of that module raises AttributeError
    on every input that meets the operator's preconditions; the context
    of the call holds no saved tensors. *)
Theorem module_without_bias_cannot_run
    (r : CustomConv2d.draws) (ic oc k s p : Z) (dil grp : arg)
    (input : Tensor) (N H W : nat) (world : World) :
  (0 < ic)%Z -> (0 < oc)%Z -> (0 < k)%Z -> (0 < s)%Z -> (0 <= p)%Z ->
  shape input = [N; Z.to_nat ic; H; W] ->
  0 < H -> 0 < W ->
  (k <= Z.of_nat H + 2 * p)%Z ->
  (k <= Z.of_nat W + 2 * p)%Z ->
  exists m,
    CustomConv2d.init r ic oc (Int k) (Int s) (Int p) dil grp false = Ok m /\
    CustomConv2d.bias m = None /\
    fst (CustomConv2d.forward m input world) = Raise AttributeError /\
    saved_tensors (ctx (snd (CustomConv2d.forward m input world))) = None.
Proof.
  intros Hic Hoc Hk Hs Hp Si HH HW FH FW.
  destruct (CustomConv2d.init r ic oc (Int k) (Int s) (Int p) dil grp false)
    as [m|e] eqn:E.
  2:{ exfalso. revert E.
      unfold CustomConv2d.init, CustomConv2d.new_tensor,
        CustomConv2d.reset_parameters, rbind.
      cbn [isinstance_int negb int_of forallb]. tests_true. cbn [andb].
      discriminate. }
  exists m.
  destruct (init_ok_fields _ _ _ _ _ _ _ _ _ E) as (Es & Ep & _ & _ & Sw).
  cbn [int_of] in Sw.
  assert (Eb : CustomConv2d.bias m = None).
  { revert E.
    unfold CustomConv2d.init, CustomConv2d.new_tensor,
      CustomConv2d.reset_parameters, rbind.
    cbn [isinstance_int negb int_of forallb]. tests_true. cbn [andb].
    intros E. inversion E. reflexivity. }
  split; [reflexivity|]. split; [exact Eb|].
  unfold CustomConv2d.forward, custom_conv2d. rewrite Es, Ep, Eb.
  rewrite (@forward_without_bias input (CustomConv2d.weight m) s p
             N (Z.to_nat ic) H W (Z.to_nat oc) (Z.to_nat k));
    try assumption; try lia.
  split; reflexivity.
Qed.

Lemma module_without_bias_on_ones :
  exists m,
    CustomConv2d.init zero_draws 1 1 (Int 3) (Int 1) (Int 0) (Int 1) (Int 1) false
    = Ok m /\
    CustomConv2d.bias m = None /\
    fst (CustomConv2d.forward m ones_input (fresh_world engine_needs))
    = Raise AttributeError /\
    saved_tensors (ctx (snd (CustomConv2d.forward m ones_input
                               (fresh_world engine_needs)))) = None.
Proof.
  apply (@module_without_bias_cannot_run zero_draws 1 1 3 1 0 (Int 1) (Int 1)
           ones_input 1 5 5 (fresh_world engine_needs));
    solve [reflexivity | lia].
Defined.

End WithoutBiasSpec.

(* ===================================================================== *)
(** ** PGDAttack.perturb *)
(* ===================================================================== *)

(** Elementwise primitives used by the attack and the saliency map. *)
Module Pointwise.

Definition map_data (f : Z -> Z) (t : Tensor) : Tensor :=
  mkTensor (shape t) (map f (data t)).


Definition abs (t : Tensor) : Tensor := map_data Z.abs t.


End Pointwise.

Module PGDAttack.

Import Pointwise.

Record t : Type := mk {
  num_steps : Z;
  step_size : Z;
  epsilon : Z
}.



End PGDAttack.

Section Perturb.

Import Pointwise.

Variables (self : PGDAttack.t) (grad_of : nat -> Tensor -> Tensor) (input : Tensor).

(** The engine gives [output.grad] the shape of [output]. *)
Hypothesis grad_shape : forall i v, shape (grad_of i v) = shape v.
Hypothesis grad_length : forall i v, length (data (grad_of i v)) = length (data v).
Hypothesis eps_nonneg : (0 <= PGDAttack.epsilon self)%Z.

Let a := PGDAttack.step_size self.





End Perturb.

Module PerturbSpec.

Import Examples.



End PerturbSpec.

(* ===================================================================== *)
(** ** GradAttention.explain *)
(* ===================================================================== *)

Module GradAttention.

Import Pointwise.

(** The values of [t.max(1)]: the running maximum over axis 1, which
    must exist and must not be empty.  A slice t[n, c] has [numel rest]
    entries. *)
Definition max_dim1 (t : Tensor) : result Tensor :=
  match shape t with
  | N :: C :: rest =>
      if C =? 0 then Raise IndexError
      else Ok (mkTensor (N :: rest)
                 (fill2 N (numel rest) (fun n j =>
                    loop (C - 1)
                         (fun c acc => Z.max acc (rd t (ix3 C (numel rest) n (S c) j)))
                         (rd t (ix3 C (numel rest) n 0 j)))))
  | _ => Raise IndexError
  end.

(** [t.unsqueeze(1)]: a new axis of size one after the first, which
    must exist. *)
Definition unsqueeze1 (t : Tensor) : result Tensor :=
  match shape t with
  | a :: rest => Ok (mkTensor (a :: 1 :: rest) (data t))
  | [] => Raise IndexError
  end.

(** [grad_of input] stands for [input.grad] after
    [most_conf_loss.backward()]. *)
Definition explain (grad_of : Tensor -> Tensor) (input : Tensor) : result Tensor :=
  rbind (max_dim1 (abs (grad_of input))) unsqueeze1.

End GradAttention.

Section Saliency.

Lemma running_max (f : nat -> Z) (m : nat) :
  (forall c, c <= m ->
     (f c <= loop m (fun c acc => Z.max acc (f (S c))) (f 0%nat))%Z) /\
  (exists c, c <= m /\ loop m (fun c acc => Z.max acc (f (S c))) (f 0) = f c).
Proof.
  induction m as [|m [IH1 [c0 [Hc0 IH2]]]]; cbn [loop].
  - split.
    + intros c Hc. replace c with 0 by lia. lia.
    + exists 0. split; [lia | reflexivity].
  - split.
    + intros c Hc. destruct (Nat.eq_dec c (S m)) as [->|Ne]; [lia|].
      specialize (IH1 c ltac:(lia)). lia.
    + destruct (Z.max_spec (loop m (fun c acc => Z.max acc (f (S c))) (f 0))
                           (f (S m))) as [[_ ->]|[_ ->]].
      * exists (S m). split; [lia | reflexivity].
      * exists c0. split; [lia | exact IH2].
Qed.

End Saliency.

Module SaliencySpec.

Import Examples Pointwise.

(** X7. The saliency map has shape (N, 1, H, W); each of its entries is
    at least the absolute gradient of every channel at that pixel and is
    the absolute gradient of one of them. *)
Theorem saliency_is_channel_maximum
    (grad_of : Tensor -> Tensor) (input : Tensor) (N C H W : nat) :
  shape (grad_of input) = [N; C; H; W] ->
  0 < C ->
  exists sal,
    GradAttention.explain grad_of input = Ok sal /\
    shape sal = [N; 1; H; W] /\
    forall n y x, n < N -> y < H -> x < W ->
      (forall c, c < C ->
         (Z.abs (at4 (grad_of input) n c y x) <= at4 sal n 0 y x)%Z) /\
      (exists c, c < C /\
         at4 sal n 0 y x = Z.abs (at4 (grad_of input) n c y x)).
Proof.
  intros Sg HC.
  unfold GradAttention.explain, GradAttention.max_dim1, rbind.
  unfold abs, map_data. cbn [shape]. rewrite Sg.
  destruct (Nat.eqb_spec C 0) as [E|_]; [lia|].
  unfold GradAttention.unsqueeze1. cbn [shape data].
  eexists. split; [reflexivity|]. split; [reflexivity|].
  intros n y x Hn Hy Hx.
  match goal with |- context [at4 ?t n 0 y x] =>
    lazymatch t with
    | mkTensor _ _ =>
        assert (V : at4 t n 0 y x =
                    nth (ix2 (numel [H; W]) n (ix2 W y x)) (data t) 0%Z)
          by (unfold at4, rd; cbn [shape nth numel fold_right]; f_equal;
              unfold ix4, ix2; lia);
        rewrite !V; clear V
    end
  end.
  cbn [data].
  rewrite nth_fill2
    by (try assumption; cbn [numel fold_right]; rewrite Nat.mul_1_r;
        apply ix2_lt; assumption).
  assert (A : forall c, rd {| shape := [N; C; H; W];
                              data := map Z.abs (data (grad_of input)) |}
                           (ix3 C (numel [H; W]) n c (ix2 W y x))
                        = Z.abs (at4 (grad_of input) n c y x)).
  { intros c. unfold at4, rd. rewrite Sg. cbn [data nth numel fold_right].
    replace (ix3 C (H * (W * 1)) n c (ix2 W y x)) with (ix4 C H W n c y x)
      by (unfold ix4, ix3, ix2; lia).
    change 0%Z with (Z.abs 0) at 1. apply map_nth. }
  destruct (running_max
              (fun c => rd {| shape := [N; C; H; W];
                              data := map Z.abs (data (grad_of input)) |}
                           (ix3 C (numel [H; W]) n c (ix2 W y x))) (C - 1))
    as [R1 (c0 & Hc0 & R2)].
  cbv beta in R1, R2. split.
  - intros c Hc. rewrite <- A. apply R1. lia.
  - exists c0. split; [lia|]. rewrite <- A. exact R2.
Qed.

Lemma saliency_of_identity_gradient :
  exists sal,
    GradAttention.explain (fun v => v) input233 = Ok sal /\
    shape sal = [2; 1; 3; 3] /\
    (Z.abs (at4 input233 1 0 2 2) <= at4 sal 1 0 2 2)%Z.
Proof.
  destruct (@saliency_is_channel_maximum (fun v => v) input233 2 2 3 3)
    as (sal & E & S & B); [reflexivity | lia |].
  exists sal. split; [exact E|]. split; [exact S|].
  apply (B 1 2 2); lia.
Defined.

End SaliencySpec.

(* ===================================================================== *)
(** ** SimpleNet: construction and reset_parameters *)
(* ===================================================================== *)

Module SimpleNet.

(** The modules [self.modules()] yields, as far as [reset_parameters]
    and the feature stack tell them apart. *)
Inductive module : Type :=
| TorchConv2d (weight : Tensor) (bias : option Tensor)
| CustomConv (m : CustomConv2d.t)
| BatchNorm2d (weight bias : Tensor)
| ReLU
| MaxPool2d (kernel_size stride padding : Z)
| AdaptiveAvgPool2d
| Linear (in_features out_features : Z)
| Sequential
| Net.

(** The two convolutions [conv_op] is instantiated with. *)
Inductive conv_op : Type := NNConv2d | OurConv2d.

(** [conv_op(ic, oc, kernel_size=k, stride=s, padding=p)]: torch's layer
    owns a weight (oc, ic, k, k) and, by default, a bias (oc). *)
Definition make_conv (op : conv_op) (r : CustomConv2d.draws)
    (ic oc k s p : Z) : result module :=
  match op with
  | NNConv2d =>
      rbind (CustomConv2d.new_tensor [oc; ic; k; k]) (fun w =>
      rbind (CustomConv2d.new_tensor [oc]) (fun b =>
      Ok (TorchConv2d
            (mkTensor (shape w) (fill1 (numel (shape w)) (CustomConv2d.wdraw r)))
            (Some (mkTensor (shape b) (fill1 (numel (shape b)) (CustomConv2d.bdraw r)))))))
  | OurConv2d =>
      rbind (CustomConv2d.init r ic oc (Int k) (Int s) (Int p) (Int 1) (Int 1) true)
            (fun m => Ok (CustomConv m))
  end.

(** The arguments of the layers of [self.features], in order. *)
Inductive layer : Type :=
| Conv (ic oc k s p : Z)
| Relu
| Pool (k s p : Z).

Definition feature_layers : list layer :=
  [ Conv 3 64 7 2 3; Relu; Pool 3 2 1;
    Conv 64 64 1 1 0; Relu; Conv 64 64 3 1 1; Relu; Conv 64 256 1 1 0; Relu;
    Pool 3 2 1;
    Conv 256 128 1 1 0; Relu; Conv 128 128 3 1 1; Relu; Conv 128 512 1 1 0; Relu ].

Fixpoint build (op : conv_op) (draws_of : nat -> CustomConv2d.draws)
    (idx : nat) (ls : list layer) : result (list module) :=
  match ls with
  | [] => Ok []
  | l :: rest =>
      rbind (match l with
             | Conv ic oc k s p => make_conv op (draws_of idx) ic oc k s p
             | Relu => Ok ReLU
             | Pool k s p => Ok (MaxPool2d k s p)
             end) (fun m =>
      rbind (build op draws_of (S idx) rest) (fun ms => Ok (m :: ms)))
  end.

(** [SimpleNet(conv_op, num_classes)], as the list [self.modules()]
    yields: the net, the feature stack and its layers, the pooling and
    the classifier. *)
Definition init (op : conv_op) (draws_of : nat -> CustomConv2d.draws)
    (num_classes : Z) : result (list module) :=
  rbind (build op draws_of 0 feature_layers) (fun features =>
  Ok (Net :: Sequential :: features ++ [AdaptiveAvgPool2d; Linear 512 num_classes])).

Definition constant_ (t : Tensor) (v : Z) : Tensor :=
  mkTensor (shape t) (map (fun _ => v) (data t)).

(** [reset_parameters]: [redraw i] stands for kaiming_normal_ on the
    weight of the i-th module.  [nn.init.consintat_] does not exist:
    reaching it is an AttributeError, and what was assigned before stays
    assigned. *)
Fixpoint reset_from (redraw : nat -> Tensor -> Tensor) (idx : nat)
    (ms : list module) : list module * option exn :=
  match ms with
  | [] => ([], None)
  | TorchConv2d w (Some b) :: rest =>
      (TorchConv2d (redraw idx w) (Some b) :: rest, Some AttributeError)
  | TorchConv2d w None :: rest =>
      let r := reset_from redraw (S idx) rest in
      (TorchConv2d (redraw idx w) None :: fst r, snd r)
  | BatchNorm2d w b :: rest =>
      let r := reset_from redraw (S idx) rest in
      (BatchNorm2d (constant_ w 1) (constant_ b 0) :: fst r, snd r)
  | m :: rest =>
      let r := reset_from redraw (S idx) rest in
      (m :: fst r, snd r)
  end.

Definition reset_parameters (redraw : nat -> Tensor -> Tensor)
    (ms : list module) : list module * option exn :=
  reset_from redraw 0 ms.

(** Modules [reset_parameters] passes over. *)
Definition untouched (m : module) : bool :=
  match m with
  | TorchConv2d _ _ | BatchNorm2d _ _ => false
  | _ => true
  end.

End SimpleNet.

Section SimpleNetFacts.

Import SimpleNet.

Lemma new_tensor_ok (dims : list Z) :
  forallb (fun d => (0 <=? d)%Z) dims = true ->
  CustomConv2d.new_tensor dims =
  Ok (mkTensor (map Z.to_nat dims) (repeat 0%Z (numel (map Z.to_nat dims)))).
Proof. intros E. unfold CustomConv2d.new_tensor. rewrite E. reflexivity. Qed.

(** Construction of the wrapper succeeds on positive sizes. *)
Lemma custom_init_ok (r : CustomConv2d.draws) (ic oc k : Z) (st pd dil grp : arg)
    (bias : bool) :
  (0 < ic)%Z -> (0 <= oc)%Z -> (0 < k)%Z ->
  isinstance_int st = true -> isinstance_int pd = true ->
  exists m, CustomConv2d.init r ic oc (Int k) st pd dil grp bias = Ok m.
Proof.
  intros Hic Hoc Hk Is Ip.
  unfold CustomConv2d.init, rbind. rewrite Is, Ip.
  cbn [isinstance_int negb int_of].
  rewrite new_tensor_ok
    by (cbn [forallb]; rewrite !andb_true_iff, !Z.leb_le; repeat split; lia).
  assert (F : forall d : list Z,
            (CustomConv2d.fan_in
               (mkTensor (map Z.to_nat [oc; ic; k; k]) d) =? 0) = false).
  { intros d. unfold CustomConv2d.fan_in.
    cbn [shape map nth skipn numel fold_right]. apply Nat.eqb_neq. nia. }
  destruct bias.
  - rewrite new_tensor_ok by (cbn [forallb]; rewrite andb_true_iff, Z.leb_le; lia).
    unfold CustomConv2d.reset_parameters.
    destruct (existsb (Nat.eqb 0) _); cbn [shape]; rewrite F; eexists; reflexivity.
  - unfold CustomConv2d.reset_parameters. eexists. reflexivity.
Qed.

Lemma make_conv_ok (op : conv_op) (r : CustomConv2d.draws) (ic oc k s p : Z) :
  (0 < ic)%Z -> (0 <= oc)%Z -> (0 < k)%Z ->
  exists m, make_conv op r ic oc k s p = Ok m /\
    match op, m with
    | NNConv2d, TorchConv2d _ (Some _) => True
    | OurConv2d, CustomConv _ => True
    | _, _ => False
    end.
Proof.
  intros Hic Hoc Hk. destruct op; unfold make_conv, rbind.
  - rewrite new_tensor_ok
      by (cbn [forallb]; rewrite !andb_true_iff, !Z.leb_le; repeat split; lia).
    rewrite new_tensor_ok by (cbn [forallb]; rewrite andb_true_iff, Z.leb_le; lia).
    eexists. split; [reflexivity | exact I].
  - destruct (@custom_init_ok r ic oc k (Int s) (Int p) (Int 1) (Int 1) true)
      as [m E]; try assumption; try reflexivity.
    rewrite E. exists (CustomConv m). split; [reflexivity | exact I].
Qed.

(** A list of modules none of which is a torch convolution or a batch
    normalisation is left as it is. *)
Lemma reset_passes_over (redraw : nat -> Tensor -> Tensor) (ms : list module)
    (idx : nat) :
  forallb untouched ms = true -> reset_from redraw idx ms = (ms, None).
Proof.
  revert idx. induction ms as [|m rest IH]; intros idx U; [reflexivity|].
  cbn [forallb] in U. apply andb_prop in U as [Um Ur].
  destruct m; try discriminate Um; cbn [reset_from]; rewrite (IH _ Ur);
    reflexivity.
Qed.

(** Up to the first torch convolution with a bias nothing changes; that
    layer gets a new weight and the call stops there. *)
Lemma reset_stops_at_first_conv (redraw : nat -> Tensor -> Tensor)
    (pre post : list module) (w b : Tensor) (idx : nat) :
  forallb untouched pre = true ->
  reset_from redraw idx (pre ++ TorchConv2d w (Some b) :: post) =
  (pre ++ TorchConv2d (redraw (idx + length pre) w) (Some b) :: post,
   Some AttributeError).
Proof.
  revert idx. induction pre as [|m rest IH]; intros idx U.
  - cbn [app length reset_from]. rewrite Nat.add_0_r. reflexivity.
  - cbn [forallb] in U. apply andb_prop in U as [Um Ur].
    cbn [app length].
    replace (idx + S (length rest)) with (S idx + length rest) by lia.
    destruct m; try discriminate Um; cbn [reset_from]; rewrite (IH _ Ur);
      reflexivity.
Qed.

End SimpleNetFacts.

Section SimpleNetBuild.

Import SimpleNet.

(** Sizes with which every layer of the stack can be constructed. *)
Definition constructible (l : layer) : bool :=
  match l with
  | Conv ic oc k _ _ => (0 <? ic)%Z && (0 <=? oc)%Z && (0 <? k)%Z
  | _ => true
  end.

Variables (op : conv_op) (draws_of : nat -> CustomConv2d.draws).

Lemma build_cons (l : layer) (rest : list layer) (idx : nat) :
  build op draws_of idx (l :: rest) =
  rbind (match l with
         | Conv ic oc k s p => make_conv op (draws_of idx) ic oc k s p
         | Relu => Ok ReLU
         | Pool k s p => Ok (MaxPool2d k s p)
         end) (fun m =>
  rbind (build op draws_of (S idx) rest) (fun ms => Ok (m :: ms))).
Proof. reflexivity. Qed.

Lemma build_ok (ls : list layer) (idx : nat) :
  forallb constructible ls = true ->
  exists ms,
    build op draws_of idx ls = Ok ms /\
    length ms = length ls /\
    (op = OurConv2d -> forallb untouched ms = true).
Proof.
  revert idx. induction ls as [|l rest IH]; intros idx G.
  - exists []. repeat split; reflexivity.
  - cbn [forallb] in G. apply andb_prop in G as [Gl Gr].
    destruct (IH (S idx) Gr) as (ms & E & L & U).
    cbn [build]. rewrite E. cbn [rbind].
    destruct l as [ic oc k s p| |k s p].
    + cbn [constructible] in Gl.
      apply andb_prop in Gl as [Gl G3]. apply andb_prop in Gl as [G1 G2].
      apply Z.ltb_lt in G1, G3. apply Z.leb_le in G2.
      destruct (@make_conv_ok op (draws_of idx) ic oc k s p G1 G2 G3)
        as (m & Em & Km).
      rewrite Em. cbn [rbind]. exists (m :: ms).
      split; [reflexivity|]. split; [cbn [length]; congruence|].
      intros ->. cbn [forallb]. rewrite (U eq_refl).
      destruct m; try contradiction; reflexivity.
    + exists (ReLU :: ms). cbn [rbind].
      split; [reflexivity|]. split; [cbn [length]; congruence|].
      intros Eo. cbn [forallb untouched]. exact (U Eo).
    + exists (MaxPool2d k s p :: ms). cbn [rbind].
      split; [reflexivity|]. split; [cbn [length]; congruence|].
      intros Eo. cbn [forallb untouched]. exact (U Eo).
Qed.

End SimpleNetBuild.

Module SimpleNetSpec.

Import SimpleNet.

(** X8. [SimpleNet.reset_parameters] never completes a reset: on a net
    built with CustomConv2d layers it changes nothing, since none of its
    modules is an nn.Conv2d or an nn.BatchNorm2d; on a net built with
    nn.Conv2d layers it redraws the weight of the first convolution and
    then raises AttributeError at [nn.init.consintat_], leaving every
    other module as it was. *)
Theorem reset_parameters_on_simplenet
    (draws_of : nat -> CustomConv2d.draws) (redraw : nat -> Tensor -> Tensor)
    (num_classes : Z) :
  (exists ms,
     init OurConv2d draws_of num_classes = Ok ms /\
     reset_parameters redraw ms = (ms, None))
  /\
  (exists w b rest,
     init NNConv2d draws_of num_classes
     = Ok (Net :: Sequential :: TorchConv2d w (Some b) :: rest) /\
     reset_parameters redraw (Net :: Sequential :: TorchConv2d w (Some b) :: rest)
     = (Net :: Sequential :: TorchConv2d (redraw 2 w) (Some b) :: rest,
        Some AttributeError)).
Proof.
  split.
  - destruct (@build_ok OurConv2d draws_of feature_layers 0 eq_refl)
      as (ms & E & _ & U).
    unfold init. rewrite E. cbn [rbind]. eexists. split; [reflexivity|].
    apply reset_passes_over.
    cbn [forallb untouched]. rewrite forallb_app, (U eq_refl). reflexivity.
  - unfold init, feature_layers. rewrite build_cons.
    destruct (@make_conv_ok NNConv2d (draws_of 0) 3 64 7 2 3)
      as (m & Em & Km); try lia.
    rewrite Em. cbn [rbind].
    destruct m as [w [b|]| | | | | | | |]; try contradiction.
    match goal with |- context [build NNConv2d draws_of 1 ?ls] =>
      destruct (@build_ok NNConv2d draws_of ls 1 eq_refl) as (ms & E & _ & _);
      rewrite E
    end.
    cbn [rbind app]. exists w, b. eexists. split; [reflexivity|].
    apply (@reset_stops_at_first_conv redraw [Net; Sequential] _ w b 0).
    reflexivity.
Qed.

End SimpleNetSpec.

(* ===================================================================== *)
(** ** SimpleNet.forward: the feature stack *)
(* ===================================================================== *)

Module Features.

Import Pointwise SimpleNet.

(** [nn.ReLU]: max(0, v), entry by entry. *)
Definition relu (t : Tensor) : Tensor := map_data (Z.max 0) t.

(** Number of window positions of [nn.MaxPool2d] along one axis
    (dilation 1, ceil_mode off); floor division. *)
Definition pool_size (h : nat) (k s p : Z) : Z :=
  ((Z.of_nat h + 2 * p - (k - 1) - 1) / s + 1)%Z.

(** The maximum over the part of window (oy, ox) that lies inside the
    image; [None] while no entry has been seen (the padding counts as
    minus infinity). *)
Definition window_max (t : Tensor) (C H W k s p : nat) (n c oy ox : nat)
  : option Z :=
  loop k (fun i =>
  loop k (fun j acc =>
    let y := oy * s + i in
    let x := ox * s + j in
    if (p <=? y) && (y <? H + p) && (p <=? x) && (x <? W + p)
    then let v := rd t (ix4 C H W n c (y - p) (x - p)) in
         Some (match acc with Some a => Z.max a v | None => v end)
    else acc))
  None.

(** [nn.MaxPool2d(kernel_size=k, stride=s, padding=p)] on a (N, C, H, W)
    or (C, H, W) input.  The padding may be at most half the window, so
    every window meets the image and [window_max] is never [None]. *)
Definition max_pool2d (x : Tensor) (k s p : Z) : result Tensor :=
  let pooled (N C H W : nat) (sh : nat -> nat -> list nat) :=
    if (0 <? k)%Z && (0 <? s)%Z && (0 <=? p)%Z && (2 * p <=? k)%Z
       && (0 <? C) && (0 <? H) && (0 <? W)
       && (1 <=? pool_size H k s p)%Z && (1 <=? pool_size W k s p)%Z
    then
      let Ho := Z.to_nat (pool_size H k s p) in
      let Wo := Z.to_nat (pool_size W k s p) in
      Ok (mkTensor (sh Ho Wo)
            (fill4 N C Ho Wo (fun n c oy ox =>
               match window_max x C H W (Z.to_nat k) (Z.to_nat s) (Z.to_nat p)
                                n c oy ox with
               | Some v => v
               | None => 0%Z
               end)))
    else Raise RuntimeError in
  match shape x with
  | [N; C; H; W] => pooled N C H W (fun Ho Wo => [N; C; Ho; Wo])
  | [C; H; W] => pooled 1 C H W (fun Ho Wo => [C; Ho; Wo])
  | _ => Raise RuntimeError
  end.

(** [m(x)].  The forward passes of nn.Conv2d, nn.BatchNorm2d,
    nn.AdaptiveAvgPool2d and nn.Linear are torch's own: [torch_forward]
    stands for them. *)
Definition call_module (torch_forward : module -> Tensor -> M Tensor)
    (m : module) (x : Tensor) : M Tensor :=
  match m with
  | CustomConv c => CustomConv2d.forward c x
  | ReLU => ret (relu x)
  | MaxPool2d k s p => pure (max_pool2d x k s p)
  | _ => torch_forward m x
  end.

(** [nn.Sequential.forward]: every module in turn. *)
Fixpoint sequential (torch_forward : module -> Tensor -> M Tensor)
    (ms : list module) (x : Tensor) : M Tensor :=
  match ms with
  | [] => ret x
  | m :: rest =>
      y <- call_module torch_forward m x ;;
      sequential torch_forward rest y
  end.

(** The channels, height and width a layer turns (c, h, w) into, when it
    accepts them. *)
Definition after (l : layer) (d : nat * nat * nat) : option (nat * nat * nat) :=
  let '(c, h, w) := d in
  match l with
  | Conv ic oc k s p =>
      if (Z.of_nat c =? ic)%Z && (0 <? ic)%Z && (0 <? oc)%Z && (0 <? k)%Z
         && (0 <? h) && (0 <? w) && (0 <? s)%Z && (0 <=? p)%Z
         && (k <=? Z.of_nat h + 2 * p)%Z && (k <=? Z.of_nat w + 2 * p)%Z
      then Some (Z.to_nat oc,
                 Z.to_nat (out_size h p (Z.to_nat k) s),
                 Z.to_nat (out_size w p (Z.to_nat k) s))
      else None
  | Relu => Some d
  | Pool k s p =>
      if (0 <? k)%Z && (0 <? s)%Z && (0 <=? p)%Z && (2 * p <=? k)%Z
         && (0 <? c) && (0 <? h) && (0 <? w)
         && (1 <=? pool_size h k s p)%Z && (1 <=? pool_size w k s p)%Z
      then Some (c, Z.to_nat (pool_size h k s p), Z.to_nat (pool_size w k s p))
      else None
  end.

Fixpoint after_all (ls : list layer) (d : nat * nat * nat)
  : option (nat * nat * nat) :=
  match ls with
  | [] => Some d
  | l :: rest =>
      match after l d with
      | Some d' => after_all rest d'
      | None => None
      end
  end.

End Features.

Section FeatureStack.

Import Pointwise SimpleNet Features.

(** A module constructed with a bias owns one of shape (out_channels). *)
Lemma init_bias_shape (r : CustomConv2d.draws) (ic oc : Z)
    (ks st pd dil grp : arg) (m : CustomConv2d.t) :
  CustomConv2d.init r ic oc ks st pd dil grp true = Ok m ->
  exists b, CustomConv2d.bias m = Some b /\ shape b = [Z.to_nat oc].
Proof.
  unfold CustomConv2d.init, CustomConv2d.reset_parameters,
    CustomConv2d.new_tensor, rbind.
  by_cases; intros E; try discriminate E; inversion E; subst m;
    cbn [CustomConv2d.bias fst snd];
    repeat match goal with
           | H : Ok _ = Ok _ |- _ => inversion H; clear H; subst
           | H : (_, _) = (_, _) |- _ => inversion H; clear H; subst
           end;
    eexists; split; reflexivity.
Qed.

(** A constructed layer accepts every input of its channel count that
    its window fits into. *)
Lemma conv_module_runs (r : CustomConv2d.draws) (ic oc k s p : Z)
    (m : CustomConv2d.t) (x : Tensor) (N H W : nat) (world : World) :
  CustomConv2d.init r ic oc (Int k) (Int s) (Int p) (Int 1) (Int 1) true = Ok m ->
  (0 < ic)%Z -> (0 < oc)%Z -> (0 < k)%Z -> (0 < s)%Z -> (0 <= p)%Z ->
  shape x = [N; Z.to_nat ic; H; W] -> 0 < H -> 0 < W ->
  (k <= Z.of_nat H + 2 * p)%Z -> (k <= Z.of_nat W + 2 * p)%Z ->
  exists y world',
    CustomConv2d.forward m x world = (Ok y, world') /\
    shape y = [N; Z.to_nat oc;
               Z.to_nat (out_size H p (Z.to_nat k) s);
               Z.to_nat (out_size W p (Z.to_nat k) s)].
Proof.
  intros E Hic Hoc Hk Hs Hp Sx HH HW FH FW.
  destruct (init_ok_fields _ _ _ _ _ _ _ _ _ E) as (Es & Ep & _ & _ & Sw).
  destruct (init_bias_shape _ _ _ _ _ _ _ _ E) as (b & Eb & Sb).
  cbn [int_of] in Sw.
  unfold CustomConv2d.forward, custom_conv2d. rewrite Es, Ep, Eb.
  rewrite (@forward_runs x (CustomConv2d.weight m) b s p
             N (Z.to_nat ic) H W (Z.to_nat oc) (Z.to_nat k));
    try assumption; try lia.
  eexists. eexists. split; [reflexivity|].
  unfold conv2d_reference. cbn [shape]. rewrite Sx, Sw. reflexivity.
Qed.

Lemma max_pool2d_shape (x : Tensor) (k s p : Z) (N C H W : nat) :
  shape x = [N; C; H; W] ->
  (0 < k)%Z -> (0 < s)%Z -> (0 <= p)%Z -> (2 * p <= k)%Z ->
  0 < C -> 0 < H -> 0 < W ->
  (1 <= pool_size H k s p)%Z -> (1 <= pool_size W k s p)%Z ->
  exists y,
    max_pool2d x k s p = Ok y /\
    shape y = [N; C; Z.to_nat (pool_size H k s p); Z.to_nat (pool_size W k s p)].
Proof.
  intros Sx Hk Hs Hp Hh HC HH HW PH PW.
  unfold max_pool2d. rewrite Sx. tests_true. cbn [andb].
  eexists. split; reflexivity.
Qed.

Variables (draws_of : nat -> CustomConv2d.draws)
          (torch_forward : module -> Tensor -> M Tensor).

(** A stack built with CustomConv2d runs on every input whose sizes its
    layers accept, and the result has the sizes [after_all] gives. *)
Lemma stack_runs (ls : list layer) :
  forall (idx : nat) (ms : list module) (c h w c' h' w' : nat)
         (x : Tensor) (N : nat) (world : World),
  build OurConv2d draws_of idx ls = Ok ms ->
  after_all ls (c, h, w) = Some (c', h', w') ->
  shape x = [N; c; h; w] ->
  exists y world',
    sequential torch_forward ms x world = (Ok y, world') /\
    shape y = [N; c'; h'; w'].
Proof.
  induction ls as [|l rest IH]; intros idx ms c h w c' h' w' x N world B A Sx.
  - cbn [build] in B. inversion B; subst ms.
    cbn [after_all] in A. inversion A; subst.
    exists x, world. split; [reflexivity | exact Sx].
  - rewrite build_cons in B. cbn [after_all] in A.
    destruct (after l (c, h, w)) as [[[c1 h1] w1]|] eqn:Al; [|discriminate A].
    destruct l as [ic oc k s p| |k s p].
    + (* a convolution *)
      unfold make_conv in B.
      destruct (CustomConv2d.init (draws_of idx) ic oc (Int k) (Int s) (Int p)
                  (Int 1) (Int 1) true) as [m|e] eqn:Em; [|discriminate B].
      cbn [rbind] in B.
      destruct (build OurConv2d draws_of (S idx) rest) as [ms'|e] eqn:Br;
        [|discriminate B].
      cbn [rbind] in B. inversion B; subst ms. clear B.
      cbn [after] in Al.
      match type of Al with (if ?g then _ else _) = _ =>
        destruct g eqn:G; [|discriminate Al] end.
      inversion Al; subst c1 h1 w1. clear Al.
      repeat (apply andb_prop in G; destruct G as [G ?]).
      repeat match goal with
             | H : (_ <? _)%Z = true |- _ => apply Z.ltb_lt in H
             | H : (_ <=? _)%Z = true |- _ => apply Z.leb_le in H
             | H : (_ =? _)%Z = true |- _ => apply Z.eqb_eq in H
             | H : (_ <? _) = true |- _ => apply Nat.ltb_lt in H
             end.
      assert (Sx' : shape x = [N; Z.to_nat ic; h; w])
        by (rewrite Sx; repeat f_equal; lia).
      destruct (@conv_module_runs (draws_of idx) ic oc k s p m x N h w world Em)
        as (y & world1 & Ey & Sy); try assumption.
      destruct (IH (S idx) ms' _ _ _ c' h' w' y N world1 Br A Sy)
        as (z & world2 & Ez & Sz).
      exists z, world2. split; [|exact Sz].
      cbn [sequential call_module]. unfold bind. rewrite Ey. exact Ez.
    + (* a ReLU *)
      cbn [rbind] in B.
      destruct (build OurConv2d draws_of (S idx) rest) as [ms'|e] eqn:Br;
        [|discriminate B].
      cbn [rbind] in B. inversion B; subst ms. clear B.
      cbn [after] in Al. inversion Al; subst c1 h1 w1. clear Al.
      destruct (IH (S idx) ms' _ _ _ c' h' w' (relu x) N world Br A Sx)
        as (z & world2 & Ez & Sz).
      exists z, world2. split; [|exact Sz].
      cbn [sequential call_module]. unfold bind, ret. exact Ez.
    + (* a pooling *)
      cbn [rbind] in B.
      destruct (build OurConv2d draws_of (S idx) rest) as [ms'|e] eqn:Br;
        [|discriminate B].
      cbn [rbind] in B. inversion B; subst ms. clear B.
      cbn [after] in Al.
      match type of Al with (if ?g then _ else _) = _ =>
        destruct g eqn:G; [|discriminate Al] end.
      inversion Al; subst c1 h1 w1. clear Al.
      repeat (apply andb_prop in G; destruct G as [G ?]).
      repeat match goal with
             | H : (_ <? _)%Z = true |- _ => apply Z.ltb_lt in H
             | H : (_ <=? _)%Z = true |- _ => apply Z.leb_le in H
             | H : (_ <? _) = true |- _ => apply Nat.ltb_lt in H
             end.
      destruct (@max_pool2d_shape x k s p N c h w Sx) as (y & Ey & Sy);
        try assumption.
      destruct (IH (S idx) ms' _ _ _ c' h' w' y N world Br A Sy)
        as (z & world2 & Ez & Sz).
      exists z, world2. split; [|exact Sz].
      cbn [sequential call_module]. unfold bind, pure. rewrite Ey. exact Ez.
Qed.

(** Window arithmetic of the layers the stack uses. *)
Lemma out_size_1x1 (h : nat) : Z.to_nat (out_size h 0 1 1) = h.
Proof. unfold out_size. rewrite Z.div_1_r. lia. Qed.

Lemma out_size_3x3 (h : nat) : Z.to_nat (out_size h 1 3 1) = h.
Proof. unfold out_size. rewrite Z.div_1_r. lia. Qed.

Lemma out_size_7x7 (h : nat) : 0 < h -> Z.to_nat (out_size h 3 7 2) = (h - 1) / 2 + 1.
Proof.
  intros Hh. unfold out_size.
  replace (Z.of_nat h + 2 * 3 - Z.of_nat 7)%Z with (Z.of_nat (h - 1)) by lia.
  change 2%Z with (Z.of_nat 2). rewrite <- Nat2Z.inj_div. lia.
Qed.

Lemma pool_size_3x3 (h : nat) : 0 < h -> Z.to_nat (pool_size h 3 2 1) = (h - 1) / 2 + 1.
Proof.
  intros Hh. unfold pool_size.
  replace (Z.of_nat h + 2 * 1 - (3 - 1) - 1)%Z with (Z.of_nat (h - 1)) by lia.
  change 2%Z with (Z.of_nat 2). rewrite <- Nat2Z.inj_div. lia.
Qed.

End FeatureStack.

Section FeatureSizes.

Import SimpleNet Features.

Lemma after_conv (ic oc k s p : Z) (c h w : nat) :
  Z.of_nat c = ic -> (0 < ic)%Z -> (0 < oc)%Z -> (0 < k)%Z ->
  0 < h -> 0 < w -> (0 < s)%Z -> (0 <= p)%Z ->
  (k <= Z.of_nat h + 2 * p)%Z -> (k <= Z.of_nat w + 2 * p)%Z ->
  after (Conv ic oc k s p) (c, h, w)
  = Some (Z.to_nat oc,
          Z.to_nat (out_size h p (Z.to_nat k) s),
          Z.to_nat (out_size w p (Z.to_nat k) s)).
Proof.
  intros E ? ? ? ? ? ? ? ? ?. cbn [after].
  rewrite (proj2 (Z.eqb_eq _ _) E). tests_true. reflexivity.
Qed.

Lemma after_pool (k s p : Z) (c h w : nat) :
  (0 < k)%Z -> (0 < s)%Z -> (0 <= p)%Z -> (2 * p <= k)%Z ->
  0 < c -> 0 < h -> 0 < w ->
  (1 <= pool_size h k s p)%Z -> (1 <= pool_size w k s p)%Z ->
  after (Pool k s p) (c, h, w)
  = Some (c, Z.to_nat (pool_size h k s p), Z.to_nat (pool_size w k s p)).
Proof. intros. cbn [after]. tests_true. reflexivity. Qed.

Lemma after_relu (d : nat * nat * nat) : after Relu d = Some d.
Proof. destruct d as [[c h] w]. reflexivity. Qed.

Lemma pool_size_3x3_pos (h : nat) : 0 < h -> (1 <= pool_size h 3 2 1)%Z.
Proof. intros Hh. pose proof (pool_size_3x3 Hh). lia. Qed.

Lemma halved_thrice (h : nat) :
  (((h - 1) / 2 + 1 - 1) / 2 + 1 - 1) / 2 + 1 = (h - 1) / 8 + 1.
Proof.
  rewrite !Nat.add_sub, !Nat.Div0.div_div. reflexivity.
Qed.

(** The stack halves height and width three times, rounding up. *)
Lemma after_features (H W : nat) :
  0 < H -> 0 < W ->
  after_all feature_layers (3, H, W)
  = Some (512, (H - 1) / 8 + 1, (W - 1) / 8 + 1).
Proof.
  intros HH HW. unfold feature_layers.
  rewrite <- (halved_thrice H), <- (halved_thrice W).
  set (H1 := (H - 1) / 2 + 1). set (W1 := (W - 1) / 2 + 1).
  set (H2 := (H1 - 1) / 2 + 1). set (W2 := (W1 - 1) / 2 + 1).
  assert (0 < H1 /\ 0 < W1 /\ 0 < H2 /\ 0 < W2) as (P1 & Q1 & P2 & Q2)
    by (subst H1 W1 H2 W2; lia).
  (* conv1, 7x7 with stride 2 *)
  cbn [after_all]. rewrite after_conv by (cbn; lia).
  change (Z.to_nat 7) with 7. rewrite !out_size_7x7 by assumption.
  fold H1 W1. change (Z.to_nat 64) with 64.
  cbn [after_all]. rewrite after_relu. cbn [after_all].
  rewrite after_pool
    by (try apply pool_size_3x3_pos; try assumption; lia).
  rewrite !pool_size_3x3 by assumption. fold H2 W2.
  (* conv2 block *)
  cbn [after_all]. rewrite after_conv by (cbn; lia).
  change (Z.to_nat 1) with 1. rewrite !out_size_1x1. change (Z.to_nat 64) with 64.
  cbn [after_all]. rewrite after_relu. cbn [after_all]. rewrite after_conv by (cbn; lia).
  change (Z.to_nat 3) with 3. rewrite !out_size_3x3. change (Z.to_nat 64) with 64.
  cbn [after_all]. rewrite after_relu. cbn [after_all]. rewrite after_conv by (cbn; lia).
  change (Z.to_nat 1) with 1. rewrite !out_size_1x1. change (Z.to_nat 256) with 256.
  cbn [after_all]. rewrite after_relu. cbn [after_all].
  rewrite after_pool
    by (try apply pool_size_3x3_pos; try assumption; lia).
  rewrite !pool_size_3x3 by assumption.
  (* conv3 block *)
  cbn [after_all]. rewrite after_conv by (cbn; lia).
  change (Z.to_nat 1) with 1. rewrite !out_size_1x1. change (Z.to_nat 128) with 128.
  cbn [after_all]. rewrite after_relu. cbn [after_all]. rewrite after_conv by (cbn; lia).
  change (Z.to_nat 3) with 3. rewrite !out_size_3x3. change (Z.to_nat 128) with 128.
  cbn [after_all]. rewrite after_relu. cbn [after_all]. rewrite after_conv by (cbn; lia).
  change (Z.to_nat 1) with 1. rewrite !out_size_1x1. change (Z.to_nat 512) with 512.
  cbn [after_all]. rewrite after_relu. reflexivity.
Qed.

End FeatureSizes.

Module FeatureSpec.

Import Examples SimpleNet Features.

(** X9. A SimpleNet built with CustomConv2d runs its feature stack on
    every non-empty batch of three-channel images of at least one pixel:
    no assertion of the convolution fails, whatever the weights, and the
    result has 512 channels and an eighth of the height and width,
    rounded up. *)
Theorem features_accept_every_image
    (draws_of : nat -> CustomConv2d.draws)
    (torch_forward : module -> Tensor -> M Tensor)
    (num_classes : Z) (x : Tensor) (N H W : nat) (world : World) :
  shape x = [N; 3; H; W] -> 0 < N -> 0 < H -> 0 < W ->
  exists features y world',
    init OurConv2d draws_of num_classes
    = Ok (Net :: Sequential :: features
            ++ [AdaptiveAvgPool2d; Linear 512 num_classes]) /\
    sequential torch_forward features x world = (Ok y, world') /\
    shape y = [N; 512; (H - 1) / 8 + 1; (W - 1) / 8 + 1].
Proof.
  intros Sx _ HH HW.
  destruct (@build_ok OurConv2d draws_of feature_layers 0 eq_refl)
    as (ms & E & _ & _).
  destruct (@stack_runs draws_of torch_forward feature_layers 0 ms
              3 H W 512 ((H - 1) / 8 + 1) ((W - 1) / 8 + 1) x N world E
              (after_features HH HW) Sx)
    as (y & world' & Ey & Sy).
  exists ms, y, world'. split; [|split; assumption].
  unfold init. rewrite E. reflexivity.
Qed.

Lemma features_on_32x32_image :
  exists features y world',
    init OurConv2d (fun _ => zero_draws) 100
    = Ok (Net :: Sequential :: features ++ [AdaptiveAvgPool2d; Linear 512 100]) /\
    sequential (fun _ t => ret t) features (ones [1; 3; 32; 32])
               (fresh_world engine_needs) = (Ok y, world') /\
    shape y = [1; 512; 4; 4].
Proof.
  apply (@features_accept_every_image (fun _ => zero_draws) (fun _ t => ret t)
           100 (ones [1; 3; 32; 32]) 1 32 32 (fresh_world engine_needs));
    [reflexivity | lia | lia | lia].
Defined.

End FeatureSpec.
